(** * api/format.js: readability adjustment, syllable tokens, emphasis blocks

    A shallow embedding of the text-styling pipeline of [api/format.js]
    and the properties of it that the specification states.

    Conventions of the embedding.
    - A JavaScript string is the list of its UTF-16 code units ([jsstring]).
      Regular expressions without the [u] flag and [trim], [split], [match]
      work on code units; the [u] flag, the spread [[...s]], [codePointAt]
      and [String.fromCodePoint] work on code points, and the grouping of
      surrogate pairs is written out.
    - Every regular expression of the source is translated into a function
      giving, at one position of the subject, the length of the match that
      the backtracking matcher finds there (or [None]); [String.prototype.match]
      with the [g] flag, [matchAll] and [split] are written once, over such
      position matchers, following the [lastIndex] loop of the language.
    - The numbers of the reading-ease score are binary64 floats, as in
      JavaScript.  The samples of [randn] are the input of the model: the
      k-th call of [randn] returns [noise k], a rational number, and the
      walk accumulates them exactly.  The Gaussian weight is a real number;
      its comparison with 0.8 is decided on the integer distance. *)

From Stdlib Require Import ZArith QArith Qround Qabs Reals Floats Lia Lra.
From Stdlib Require Import List String Ascii Bool.
From stdpp Require Import base list.
Import ListNotations.

Set Warnings "-inexact-float".

(** ** Strings *)

Abbreviation jsstring := (list Z).

(** A literal made of ASCII characters, as code units. *)
Fixpoint str (s : string) : jsstring :=
  match s with
  | EmptyString => []
  | String a s' => Z.of_N (N_of_ascii a) :: str s'
  end.

(** [c] belongs to the character class whose members are listed in [cls]. *)
Definition inClass (cls : string) (c : Z) : bool :=
  existsb (Z.eqb c) (str cls).

Definition inRange (lo hi c : Z) : bool := ((lo <=? c) && (c <=? hi))%Z.

(** [\w]: [A-Za-z0-9_] (the same set with and without the [u] flag). *)
Definition isWord (c : Z) : bool :=
  inRange 65 90 c || inRange 97 122 c || inRange 48 57 c || (c =? 95)%Z.

(** [\s], which is also the set that [trim] strips: TAB, LF, VT, FF, CR, space,
    U+00A0, U+1680, U+2000..U+200A, U+2028, U+2029, U+202F, U+205F, U+3000,
    U+FEFF. *)
Definition isSpace (c : Z) : bool :=
  inRange 9 13 c || (c =? 32)%Z || (c =? 160)%Z || (c =? 5760)%Z ||
  inRange 8192 8202 c || (c =? 8232)%Z || (c =? 8233)%Z || (c =? 8239)%Z ||
  (c =? 8287)%Z || (c =? 12288)%Z || (c =? 65279)%Z.

(** [[aeiouy]] and [[aeiouyAEIOUY]]. *)
Definition isVowelLower : Z -> bool := inClass "aeiouy".
Definition isVowel : Z -> bool := inClass "aeiouyAEIOUY".

(** Surrogates. *)
Definition isHigh (c : Z) : bool := inRange 55296 56319 c.
Definition isLow (c : Z) : bool := inRange 56320 57343 c.

(** Number of code units of the code point that starts [s]. *)
Definition cpLen (s : jsstring) : nat :=
  match s with
  | h :: l :: _ => if isHigh h && isLow l then 2 else 1
  | _ => 1
  end.

Fixpoint dropWhile (p : Z -> bool) (s : jsstring) : jsstring :=
  match s with
  | c :: r => if p c then dropWhile p r else s
  | [] => []
  end.

(** [String.prototype.trim]. *)
Definition trim (s : jsstring) : jsstring :=
  rev (dropWhile isSpace (rev (dropWhile isSpace s))).

(** [Array.prototype.join]. *)
Fixpoint join (sep : jsstring) (parts : list jsstring) : jsstring :=
  match parts with
  | [] => []
  | [p] => p
  | p :: ps => p ++ sep ++ join sep ps
  end.

(** [Array.prototype.slice(start, end)] with the language's treatment of
    negative and out-of-range bounds. *)
Definition slice {A} (l : list A) (start end_ : Z) : list A :=
  let len := Z.of_nat (length l) in
  let k := if (start <? 0)%Z then Z.max (len + start) 0 else Z.min start len in
  let final := if (end_ <? 0)%Z then Z.max (len + end_) 0 else Z.min end_ len in
  take (Z.to_nat (final - k)) (drop (Z.to_nat k) l).

(** ** Regular expressions as position matchers *)

(** A position matcher receives the subject before the position (reversed,
    for lookbehind) and the subject from the position on, and returns the
    length of the match found at that position. *)
Definition matcher := jsstring -> jsstring -> option nat.

(** Length of the longest prefix whose code units satisfy [p]. *)
Fixpoint prefixLen (p : Z -> bool) (s : jsstring) : nat :=
  match s with
  | c :: r => if p c then S (prefixLen p r) else 0
  | [] => 0
  end.

(** [[p]+] with nothing after it: the greedy run, at least one code unit. *)
Definition plus (p : Z -> bool) (s : jsstring) : option nat :=
  match prefixLen p s with
  | 0 => None
  | n => Some n
  end.

(** Global matching ([String.prototype.match] with the [g] flag, and
    [matchAll]): [lastIndex] starts at 0; the matcher is tried at [lastIndex]
    and at the following positions until it succeeds; the match is recorded
    and [lastIndex] moves to its end (one position further after an empty
    match); the last attempt is at the end of the subject.  [skip] counts the
    code units still covered by the last match; with the [u] flag a failed
    or empty attempt moves by one code point. *)
Fixpoint matchAll_from (m : matcher) (u : bool) (skip : nat)
    (prev rest : jsstring) : list jsstring :=
  match rest with
  | [] => match skip, m prev [] with
          | 0, Some _ => [[]]
          | _, _ => []
          end
  | c :: r =>
      match skip with
      | S k => matchAll_from m u k (c :: prev) r
      | 0 =>
          let adv := if u then cpLen rest else 1 in
          match m prev rest with
          | Some 0 => [] :: matchAll_from m u (pred adv) (c :: prev) r
          | Some n => take n rest :: matchAll_from m u (pred n) (c :: prev) r
          | None => matchAll_from m u (pred adv) (c :: prev) r
          end
      end
  end.

Definition matchAll (m : matcher) (u : bool) (s : jsstring) : list jsstring :=
  matchAll_from m u 0 [] s.

(** [String.prototype.split] with a regular expression: [cur] is the piece
    being collected (reversed), from the end [p] of the last separator to the
    position [q]; a match at [q] that ends at [p] is ignored; the last piece
    runs to the end of the subject. *)
Fixpoint split_from (m : matcher) (skip : nat) (prev cur rest : jsstring)
    : list jsstring :=
  match rest with
  | [] => [rev cur]
  | c :: r =>
      match skip with
      | S k => split_from m k (c :: prev) [] r
      | 0 =>
          match m prev rest with
          | Some 0 =>
              match cur with
              | [] => split_from m 0 (c :: prev) [c] r
              | _ => rev cur :: split_from m 0 (c :: prev) [c] r
              end
          | Some (S k) => rev cur :: split_from m k (c :: prev) [] r
          | None => split_from m 0 (c :: prev) (c :: cur) r
          end
      end
  end.

Definition split (m : matcher) (s : jsstring) : list jsstring :=
  match s with
  | [] => match m [] [] with Some _ => [] | None => [[]] end
  | _ => split_from m 0 [] [] s
  end.

(** The regular expressions of the source. *)

(** [/[aeiouy]+/g] *)
Definition re_vowels : matcher := fun _ s => plus isVowelLower s.

(** [/[.!?]+/] *)
Definition re_terminals : matcher := fun _ s => plus (inClass ".!?") s.

(** [/\w+/g] *)
Definition re_word : matcher := fun _ s => plus isWord s.

(** [/\s+/] *)
Definition re_spaces : matcher := fun _ s => plus isSpace s.

(** [/(?<=[.!?])\s+/]: the code unit before the position is a terminal. *)
Definition re_sentence_gap : matcher := fun prev s =>
  match prev with
  | b :: _ => if inClass ".!?" b then plus isSpace s else None
  | [] => None
  end.

(** [/,\s*/] *)
Definition re_comma : matcher := fun _ s =>
  match s with
  | c :: r => if (c =? 44)%Z then Some (S (prefixLen isSpace r)) else None
  | [] => None
  end.

(** [re], [/\w+|[^\w\s]|\s+/gu]: the alternatives in order; with the [u] flag
    [[^\w\s]] takes one code point, a surrogate pair being one. *)
Definition re_token : matcher := fun _ s =>
  match plus isWord s with
  | Some n => Some n
  | None =>
      match s with
      | c :: _ => if negb (isWord c || isSpace c) then Some (cpLen s)
                  else plus isSpace s
      | [] => None
      end
  end.

(** [syllRe]:
    [/[^aeiouyAEIOUY]*[aeiouyAEIOUY]+(?:[^aeiouyAEIOUY]+(?=[aeiouyAEIOUY])|)/g].
    The greedy [[^V]*] takes every non-vowel; a shorter choice would leave a
    non-vowel in front of [[V]+], so there is a match only when a vowel
    follows that run.  After the vowels, the first alternative of the group
    takes the non-vowels when there is at least one and a vowel follows them
    (a shorter choice is followed by a non-vowel); otherwise the empty
    alternative is taken. *)
Definition syllRe : matcher := fun _ s =>
  let nonVowel c := negb (isVowel c) in
  let n0 := prefixLen nonVowel s in
  let n1 := prefixLen isVowel (drop n0 s) in
  match n1 with
  | 0 => None
  | _ =>
      let s2 := drop (n0 + n1) s in
      let n2 := prefixLen nonVowel s2 in
      match n2, drop n2 s2 with
      | S _, v :: _ => if isVowel v then Some (n0 + n1 + n2) else Some (n0 + n1)
      | _, _ => Some (n0 + n1)
      end
  end.

(** [/^\s+$/.test(tok)] and [/[^\w\s]/.test(tok)]. *)
Definition test_all_spaces (tok : jsstring) : bool :=
  match tok with
  | [] => false
  | _ => forallb isSpace tok
  end.

Definition test_has_punct (tok : jsstring) : bool :=
  existsb (fun c => negb (isWord c || isSpace c)) tok.

(** ** 1. Syllable counter *)

(** [String.prototype.toLowerCase], one code unit at a time.  The model is
    exact on every code unit whose lower-case form contains an ASCII code
    unit: the letters A-Z, U+0130 (lower-case form: [i] followed by U+0307)
    and U+212A (the Kelvin sign, lower-case form [k]).  The lower-case forms
    of the other code units are made of non-ASCII code units; they are left
    in place here, which a pattern over ASCII letters cannot tell apart. *)
Definition lowerUnit (c : Z) : jsstring :=
  if inRange 65 90 c then [(c + 32)%Z]
  else if (c =? 304)%Z then [105%Z; 775%Z]
  else if (c =? 8490)%Z then [107%Z]
  else [c].

Definition toLowerCase (s : jsstring) : jsstring := flat_map lowerUnit s.

Definition countSyllables (word : jsstring) : nat :=
  match matchAll re_vowels false (toLowerCase word) with
  | [] => 1
  | matches => length matches
  end.

(** ** 2. Reading-ease score *)

Definition isEmpty (s : jsstring) : bool :=
  match s with [] => true | _ => false end.

(** A length or a count, as a number. *)
Definition num (n : nat) : float := PrimFloat.of_uint63 (Uint63.of_Z (Z.of_nat n)).

(** [Math.round]: the nearest integer, ties towards plus infinity; the sign of
    a zero result is the sign of the argument.  A finite float is
    [(-1)^s * m * 2^e]; when [e >= 0] it is an integer already. *)
Definition Math_round (x : float) : float :=
  match Prim2SF x with
  | S754_finite s m e =>
      if (0 <=? e)%Z then x
      else
        let n := if s then Z.neg m else Z.pos m in
        let k := ((2 * n + 2 ^ (- e)) / 2 ^ (1 - e))%Z in
        if (k =? 0)%Z then (if s then (-0)%float else 0%float)
        else if (k <? 0)%Z
             then PrimFloat.opp (PrimFloat.of_uint63 (Uint63.of_Z (- k)))
             else PrimFloat.of_uint63 (Uint63.of_Z k)
  | _ => x
  end.

(** [text.split(/[.!?]+/).filter(s => s.trim())] *)
Definition sentencesOf (text : jsstring) : list jsstring :=
  List.filter (fun s => negb (isEmpty (trim s))) (split re_terminals text).

(** [text.match(/\w+/g) || []] *)
Definition wordsOf (text : jsstring) : list jsstring :=
  matchAll re_word false text.

Definition fleschReadingEase (text : jsstring) : float :=
  let sentences := sentencesOf text in
  let words := wordsOf text in
  let numSentences := length sentences in
  let numWords := length words in
  let totalSyllables := fold_left (fun s w => s + countSyllables w) words 0 in
  if (numSentences =? 0) || (numWords =? 0) then 0%float
  else
    let score :=
      (206.835 - 1.015 * (num numWords / num numSentences)
               - 84.6 * (num totalSyllables / num numWords))%float in
    (Math_round (score * 100) / 100)%float.

(** ** 3. Readability adjustment *)

(** [score >= lower && score <= upper] *)
Definition inBand (lower upper score : float) : bool :=
  (lower <=? score)%float && (score <=? upper)%float.

(** The fallback for a sentence without comma:
    [words = trimmed.split(/\s+/); mid = Math.floor(words.length / 2);
     parts = [words.slice(0, mid).join(" "), words.slice(mid).join(" ")]]. *)
Definition bisect (trimmed : jsstring) : list jsstring :=
  let words := split re_spaces trimmed in
  let len := Z.of_nat (length words) in
  let mid := (len / 2)%Z in
  [join (str " ") (slice words 0 mid); join (str " ") (slice words mid len)].

(** The body of the loop over the sentences: the strings that one [sent]
    appends to [newSentences]. *)
Definition adjustSentence (lower upper : float) (sent : jsstring) : list jsstring :=
  let trimmed := trim sent in
  if isEmpty trimmed then []
  else if inBand lower upper (fleschReadingEase trimmed) then [trimmed]
  else
    let parts := split re_comma trimmed in
    let parts := if length parts <=? 1 then bisect trimmed else parts in
    List.filter (fun part => negb (isEmpty part)) (map trim parts).

Definition adjustReadability (text : jsstring) (lower upper : float) : jsstring :=
  if isEmpty text then text
  else if inBand lower upper (fleschReadingEase text) then text
  else
    let sentences := split re_sentence_gap text in
    let newSentences := flat_map (adjustSentence lower upper) sentences in
    join (str " ") newSentences.

(** ** 4. Asymmetric Gaussian *)

Definition sigmaR : R := 3.74%R.
Definition sigmaL : R := 2.41%R.

(** [Math.exp] is the real exponential here, and the arithmetic is exact:
    this is the function on the arguments that [formatSyllables] passes,
    the integer distances inside a block, where [x * x] is far from an
    overflow and [Math.exp] far from an underflow. *)
Definition gaussianAsym (x : R) : R :=
  let sigma := if Rle_dec 0 x then sigmaR else sigmaL in
  exp (- (x * x) / (2 * sigma * sigma)).

(** The test [gaussianAsym(pos - center) > 0.8] on an integer distance, in
    executable form; [emphasised_gaussianAsym] below relates it to
    [gaussianAsym].  The four weights nearest to 0.8 are 0.72, 0.87, 0.92 and
    0.71, so the rounding of [Math.exp] does not change the outcome. *)
Definition emphasised (d : Z) : bool := ((-1 <=? d) && (d <=? 2))%Z.

(** ** 5. Syllable tokens *)

Inductive tokType := sep | syll.

Record token := Token { type : tokType; text : jsstring }.

(** [tok.match(syllRe) || [tok]] *)
Definition syllablesOf (tok : jsstring) : list jsstring :=
  match matchAll syllRe false tok with
  | [] => [tok]
  | parts => parts
  end.

(** The body of the loop over the matches: the tokens that one match [tok]
    pushes. *)
Definition tokensOf (tok : jsstring) : list token :=
  if test_all_spaces tok || test_has_punct tok
  then [Token sep tok]
  else map (Token syll) (syllablesOf tok).

Definition tokenizeToSyllables (text : jsstring) : list token :=
  flat_map tokensOf (matchAll re_token true text).

(** ** 6. Block sizes from a discrete Brownian walk *)

Section Noise.

(** [noise k] is the value that the k-th call of [randn] returns. *)
Variable noise : nat -> Q.

(** The iterations of [for (let i = 2; i <= nBlocks; i++)]: [steps] of them
    remain, [k] samples were drawn, [W] is the walk. *)
Fixpoint brownianWalk (base minSize maxSize : Z) (steps k : nat) (W : Q)
    : list Z :=
  match steps with
  | 0 => []
  | S steps' =>
      let W := (W + noise k)%Q in
      let raw := Qfloor (inject_Z base - Qabs W)%Q in
      let raw := if (raw <? minSize)%Z then minSize else raw in
      let raw := if (raw >? maxSize)%Z then maxSize else raw in
      raw :: brownianWalk base minSize maxSize steps' (S k) W
  end.

Definition brownianBlockSizes (nBlocks base minSize maxSize : Z) : list Z :=
  base :: brownianWalk base minSize maxSize (Z.to_nat (nBlocks - 1)) 0 0.

(** ** 7. Emphasis *)

(** [tokens[tok_i].text = `**${tokens[tok_i].text}**`]; [tok_i] comes from
    [syllIdxs], so it is an index of [tokens]. *)
Definition wrap (t : token) : token :=
  Token (type t) (str "**" ++ text t ++ str "**").

(** [block.forEach((tok_i, pos) => ...)], from position [pos] on. *)
Fixpoint markFrom (center : Z) (pos : nat) (block : list nat)
    (tokens : list token) : list token :=
  match block with
  | [] => tokens
  | tok_i :: block' =>
      let tokens :=
        if emphasised (Z.of_nat pos - center) then alter wrap tok_i tokens
        else tokens in
      markFrom center (S pos) block' tokens
  end.

Definition markBlock (block : list nat) (tokens : list token) : list token :=
  let center := (Z.of_nat (length block) / 2)%Z in
  markFrom center 0 block tokens.

(** [sizes.forEach(size => ...)] with the running [idx]. *)
Fixpoint markBlocks (syllIdxs : list nat) (sizes : list Z) (idx : Z)
    (tokens : list token) : list token :=
  match sizes with
  | [] => tokens
  | size :: sizes' =>
      let block := slice syllIdxs idx (idx + size) in
      markBlocks syllIdxs sizes' (idx + size) (markBlock block tokens)
  end.

(** [tokens.map((t, i) => (t.type === "syll" ? i : null)).filter(i => i !== null)] *)
Definition syllIdxsOf (tokens : list token) : list nat :=
  omap (fun i => i) (imap (fun i t => match type t with syll => Some i | sep => None end)
                tokens).

Definition formatSyllables (tokens : list token) : jsstring :=
  let syllIdxs := syllIdxsOf tokens in
  let total := length syllIdxs in
  let nBlocks := Qceiling (inject_Z (Z.of_nat total) / 2)%Q in
  let sizes := brownianBlockSizes nBlocks 21 4 12 in
  let tokens := markBlocks syllIdxs sizes 0 tokens in
  join [] (map text tokens).

(** ** 8. Pipeline *)

Definition processText (text : jsstring) : jsstring :=
  let adjusted := adjustReadability text 74 82 in
  let tokens := tokenizeToSyllables adjusted in
  formatSyllables tokens.

End Noise.

(** ** Unicode bold *)

(** The spread [[...s]]: the code points of [s], each as a string of one code
    unit or of a surrogate pair. *)
Fixpoint spread (s : jsstring) : list jsstring :=
  match s with
  | [] => []
  | c :: s' =>
      match s' with
      | l :: s'' => if isHigh c && isLow l then [c; l] :: spread s''
                    else [c] :: spread s'
      | [] => [[c]]
      end
  end.

(** [ch.codePointAt(0)] on a non-empty string. *)
Definition codePointAt0 (ch : jsstring) : Z :=
  match ch with
  | c :: l :: _ =>
      if isHigh c && isLow l
      then ((c - 55296) * 1024 + (l - 56320) + 65536)%Z
      else c
  | c :: _ => c
  | [] => 0%Z
  end.

(** [String.fromCodePoint]. *)
Definition fromCodePoint (cp : Z) : jsstring :=
  if (cp <? 65536)%Z then [cp]
  else [((cp - 65536) / 1024 + 55296)%Z; ((cp - 65536) mod 1024 + 56320)%Z].

(** The function mapped over the code points. *)
Definition boldChar (ch : jsstring) : jsstring :=
  let code := codePointAt0 ch in
  if ((code >=? 65) && (code <=? 90))%Z
  then fromCodePoint (0x1D400 + (code - 65))
  else if ((code >=? 97) && (code <=? 122))%Z
  then fromCodePoint (0x1D41A + (code - 97))
  else if ((code >=? 48) && (code <=? 57))%Z
  then fromCodePoint (0x1D7CE + (code - 48))
  else ch.

Definition toUnicodeBold (s : jsstring) : jsstring :=
  join [] (map boldChar (spread s)).

(** ** Renderings of the result *)

(** Two stars at the head of [s]. *)
Definition starsAt (s : jsstring) : bool :=
  match s with
  | a :: b :: _ => (a =? 42)%Z && (b =? 42)%Z
  | _ => false
  end.

(** A line terminator, which [.] does not match: LF, CR, U+2028, U+2029. *)
Definition isLineTerminator (c : Z) : bool :=
  (c =? 10)%Z || (c =? 13)%Z || (c =? 8232)%Z || (c =? 8233)%Z.

(** [(.*?)\*\*], after the opening stars: the lazy [.*?] takes the fewest
    code units that bring the matcher in front of two stars; the result is
    their number.  A line terminator before the closing stars makes the
    match fail. *)
Fixpoint closeAt (s : jsstring) : option nat :=
  match s with
  | [] => None
  | c :: r =>
      if starsAt s then Some 0
      else if isLineTerminator c then None
      else option_map S (closeAt r)
  end.

(** [/\*\*(.*?)\*\*/g] *)
Definition re_strong : matcher := fun _ s =>
  if starsAt s then option_map (fun k => k + 4) (closeAt (drop 2 s)) else None.

(** [/\*\*/g] *)
Definition re_markers : matcher := fun _ s =>
  if starsAt s then Some 2 else None.

(** [String.prototype.replace] with a global regular expression and a
    replacement computed from the match: the matches are found as by
    [matchAll], each is replaced, and the code units between them are kept. *)
Fixpoint replace_from (m : matcher) (repl : jsstring -> jsstring) (skip : nat)
    (prev rest : jsstring) : jsstring :=
  match rest with
  | [] => match skip, m prev [] with
          | 0, Some _ => repl []
          | _, _ => []
          end
  | c :: r =>
      match skip with
      | S k => replace_from m repl k (c :: prev) r
      | 0 =>
          match m prev rest with
          | Some 0 => repl [] ++ c :: replace_from m repl 0 (c :: prev) r
          | Some n => repl (take n rest) ++ replace_from m repl (pred n) (c :: prev) r
          | None => c :: replace_from m repl 0 (c :: prev) r
          end
      end
  end.

Definition replace (m : matcher) (repl : jsstring -> jsstring) (s : jsstring)
    : jsstring :=
  replace_from m repl 0 [] s.

(** The replacement ["<strong>$1</strong>"]: [$1] is what [(.*?)] matched, the
    match without its first two and its last two code units. *)
Definition strongOf (matched : jsstring) : jsstring :=
  str "<strong>" ++ take (length matched - 4) (drop 2 matched) ++ str "</strong>".

Definition toHtml (markdown : jsstring) : jsstring :=
  replace re_strong strongOf markdown.

(** [result.replace(/\*\*/g, "")], in the handler. *)
Definition stripMarkers (result : jsstring) : jsstring :=
  replace re_markers (fun _ => []) result.

(** The body of the response to a POST request whose decoded text is [text]:
    [{ html, unicode, markdown }]. *)
Record body := Body { html : jsstring; unicode : jsstring; markdown : jsstring }.

Definition formatBody (noise : nat -> Q) (text : jsstring) : body :=
  let result := processText noise text in
  Body (toHtml result) (toUnicodeBold (stripMarkers result)) result.

(** * Notions used in the statements *)

(** ** Syllable counter *)

(** The number of maximal runs of code units of the class [p] in [s];
    [inRun] tells whether the code unit before [s] is in the class. *)
Fixpoint runsFrom (p : Z -> bool) (inRun : bool) (s : jsstring) : nat :=
  match s with
  | [] => 0
  | c :: r =>
      if p c then (if inRun then 0 else 1) + runsFrom p true r
      else runsFrom p false r
  end.

Definition runs (p : Z -> bool) (s : jsstring) : nat := runsFrom p false s.

(** ** Words of a sentence *)

Definition startsNonSpace (s : jsstring) : Prop :=
  match s with
  | c :: _ => isSpace c = false
  | [] => True
  end.

Fixpoint endsNonSpace (s : jsstring) : Prop :=
  match s with
  | [] => True
  | [c] => isSpace c = false
  | _ :: r => endsNonSpace r
  end.

(** A word: not empty, no white space. *)
Definition goodWord (w : jsstring) : Prop :=
  w <> [] /\ Forall (fun c => isSpace c = false) w.

(** The two groups as the specification words them: the words before and
    including index [floor(n / 2)], and the words after it. *)
Definition bisect_spec (words : list jsstring) : list jsstring :=
  let mid := length words / 2 in
  [join (str " ") (take (S mid) words); join (str " ") (drop (S mid) words)].

(** ** Marked tokens *)

(** The text of a token, with the markers around it when it is marked. *)
Definition render (t : token) (marked : bool) : jsstring :=
  if marked then str "**" ++ text t ++ str "**" else text t.

(** The positions of the syllable tokens, counted from [n]. *)
Fixpoint idxsFrom (n : nat) (tokens : list token) : list nat :=
  match tokens with
  | [] => []
  | t :: ts =>
      match type t with
      | syll => n :: idxsFrom (S n) ts
      | sep => idxsFrom (S n) ts
      end
  end.

(** Wrapping the tokens at the positions [js], one after the other. *)
Definition wrapAll (js : list nat) (tokens : list token) : list token :=
  fold_left (fun toks j => alter wrap j toks) js tokens.

(** ** Code points *)

(** The code points of a string. *)
Definition codePoints (s : jsstring) : list Z := map codePointAt0 (spread s).

(** The mathematical bold code point of a letter or a digit: U+1D400 for A,
    U+1D41A for a, U+1D7CE for 0, and the following ones in order. *)
Definition mathBold (cp : Z) : Z :=
  if inRange 65 90 cp then (0x1D400 + (cp - 65))%Z
  else if inRange 97 122 cp then (0x1D41A + (cp - 97))%Z
  else if inRange 48 57 cp then (0x1D7CE + (cp - 48))%Z
  else cp.

(** A list of strings that is the list of the code points of its
    concatenation: every element is one code unit or a surrogate pair, and a
    single high surrogate is not followed by a low one. *)
Fixpoint wfChars (chs : list jsstring) : Prop :=
  match chs with
  | [] => True
  | ch :: rest =>
      match ch with
      | [c] => match rest with
               | (l :: _) :: _ => isHigh c && isLow l = false
               | _ => True
               end
      | [h; l] => isHigh h && isLow l = true
      | _ => False
      end /\ wfChars rest
  end.

(** ** Words of a text *)

(** The run being read, once it ends. *)
Definition flush (cur : jsstring) : list jsstring :=
  match cur with [] => [] | _ => [rev cur] end.

(** The maximal runs of word characters of [s], in order; [cur] is the run
    being read, reversed. *)
Fixpoint wordRunsFrom (cur s : jsstring) : list jsstring :=
  match s with
  | [] => flush cur
  | c :: r => if isWord c then wordRunsFrom (c :: cur) r
              else flush cur ++ wordRunsFrom [] r
  end.

Definition wordRuns (s : jsstring) : list jsstring := wordRunsFrom [] s.

(** [t.type === "syll"] *)
Definition isSyll (t : token) : bool :=
  match type t with syll => true | sep => false end.

(** A pattern whose matches are not empty and hold no word character. *)
Definition sepSafe (m : matcher) : Prop :=
  forall prev rest n, m prev rest = Some n ->
    n <> 0 /\ Forall (fun c => isWord c = false) (take n rest).

(** The texts of the syllable tokens. *)
Definition syllTexts (tokens : list token) : list jsstring :=
  map text (List.filter isSyll tokens).

(** ** Words, as the tokenizer leaves them *)

Definition nonVowel (c : Z) : bool := negb (isVowel c).

(** [s] without the non-vowels at its end. *)
Definition dropFinalNonVowels (s : jsstring) : jsstring :=
  rev (dropWhile nonVowel (rev s)).

(** What is left of a word: without vowel it is kept; with a vowel it loses
    the non-vowels after its last vowel. *)
Definition keepWord (w : jsstring) : jsstring :=
  if existsb isVowel w then dropFinalNonVowels w else w.

(** [f] applied to the maximal runs of word characters of [s], the other code
    units kept; [cur] is the run being read, reversed. *)
Definition flushWith (f : jsstring -> jsstring) (cur : jsstring) : jsstring :=
  match cur with [] => [] | _ => f (rev cur) end.

Fixpoint mapWordsFrom (f : jsstring -> jsstring) (cur s : jsstring) : jsstring :=
  match s with
  | [] => flushWith f cur
  | c :: r => if isWord c then mapWordsFrom f (c :: cur) r
              else flushWith f cur ++ c :: mapWordsFrom f [] r
  end.

Definition mapWords (f : jsstring -> jsstring) (s : jsstring) : jsstring :=
  mapWordsFrom f [] s.

(** The shape of a token: its text is not empty; a syllable token is made of
    word characters; a separator has none, and is white space or one code
    point. *)
Definition tokenShape (t : token) : Prop :=
  text t <> [] /\
  match type t with
  | syll => Forall (fun c => isWord c = true) (text t)
  | sep => Forall (fun c => isWord c = false) (text t) /\
           (Forall (fun c => isSpace c = true) (text t) \/
            spread (text t) = [text t])
  end.

(** The code units that the tokenizer never drops: vowels, and all that is
    not a word character. *)
Definition kept (c : Z) : bool := isVowel c || negb (isWord c).

(** A string that is not empty and has no white space at either end. *)
Definition trimmedPart (p : jsstring) : Prop :=
  p <> [] /\ startsNonSpace p /\ endsNonSpace p.

(** The code units that the adjustment never touches: all but white space
    and the comma. *)
Definition solid (c : Z) : bool := negb (isSpace c || (c =? 44)%Z).

(** A pattern whose matches are not empty and hold white space and commas
    only. *)
Definition sepOnly (m : matcher) : Prop :=
  forall prev rest n, m prev rest = Some n ->
    n <> 0 /\ Forall (fun c => solid c = false) (take n rest).

(** ** Blocks *)

(** The positions of a block at a distance -1, 0, 1 or 2 from [center]. *)
Definition window (center : nat) (block : list nat) : list nat :=
  drop (center - 1) (take (center + 3) block).

Definition sumZ (l : list Z) : Z := fold_right Z.add 0%Z l.

(** The consecutive pieces of [l] of the given sizes. *)
Fixpoint chunks (sizes : list Z) (l : list nat) : list (list nat) :=
  match sizes with
  | [] => []
  | size :: sizes' =>
      take (Z.to_nat size) l :: chunks sizes' (drop (Z.to_nat size) l)
  end.

(** ** Letters and digits *)

(** The ASCII letters and digits, which [toUnicodeBold] replaces. *)
Definition isAlnum (c : Z) : bool :=
  inRange 65 90 c || inRange 97 122 c || inRange 48 57 c.

(** ** Renderings *)

(** The text of a token in the page, in a [strong] element when it is
    marked. *)
Definition renderHtml (t : token) (marked : bool) : jsstring :=
  if marked then str "<strong>" ++ text t ++ str "</strong>" else text t.

(** A pattern that starts with two stars. *)
Definition starred (m : matcher) : Prop :=
  forall prev s, starsAt s = false -> m prev s = None.

(** A token without star, and a mark that is on a token without line
    terminator only. *)
Definition markable (t : token) (marked : bool) : Prop :=
  Forall (fun c => c <> 42%Z) (text t) /\
  (marked = true -> Forall (fun c => isLineTerminator c = false) (text t)).

(** ** Sentences *)

(** The number of the sentences that the score counts, read from left to
    right: [seen] tells whether a code unit other than white space was read
    since the last terminal. *)
Fixpoint sentencesFrom (seen : bool) (s : jsstring) : nat :=
  match s with
  | [] => if seen then 1 else 0
  | c :: r =>
      if inClass ".!?" c then (if seen then 1 else 0) + sentencesFrom false r
      else sentencesFrom (seen || negb (isSpace c)) r
  end.

(** * Properties *)

(** ** Lists and slices *)

Lemma join_nil_concat (parts : list jsstring) : join [] parts = concat parts.
Proof.
  induction parts as [|p ps IH]; [reflexivity|].
  destruct ps as [|q ps]; simpl in *.
  - now rewrite app_nil_r.
  - now rewrite IH.
Qed.

(** A slice with bounds [start <= start + size] inside the non-negative
    numbers is [size] elements from position [start]. *)
Lemma slice_take_drop {A} (l : list A) (start size : Z) :
  (0 <= start)%Z -> (0 <= size)%Z ->
  slice l start (start + size) = take (Z.to_nat size) (drop (Z.to_nat start) l).
Proof.
  intros Hs Hz. unfold slice.
  destruct (Z.ltb_spec start 0); [lia|].
  destruct (Z.ltb_spec (start + size) 0); [lia|].
  destruct (Z.le_gt_cases (Z.of_nat (length l)) start) as [Hge|Hlt].
  - rewrite !drop_ge by lia. now rewrite !take_nil.
  - rewrite (Z.min_l start) by lia.
    destruct (Z.le_gt_cases (start + size) (Z.of_nat (length l))) as [Hin|Hout].
    + rewrite Z.min_l by lia. do 2 f_equal. lia.
    + rewrite Z.min_r by lia.
      rewrite !take_ge; [reflexivity | |]; rewrite length_drop; lia.
Qed.

Lemma slice_from_start {A} (l : list A) (n : Z) :
  (0 <= n)%Z -> slice l 0 n = take (Z.to_nat n) l.
Proof.
  intros Hn. change n with (0 + n)%Z at 1.
  now rewrite slice_take_drop by lia.
Qed.

Lemma slice_to_end {A} (l : list A) (n : Z) :
  (0 <= n)%Z -> slice l n (Z.of_nat (length l)) = drop (Z.to_nat n) l.
Proof.
  intros Hn. unfold slice.
  destruct (Z.ltb_spec n 0); [lia|].
  destruct (Z.ltb_spec (Z.of_nat (length l)) 0); [lia|].
  rewrite Z.min_id.
  destruct (Z.le_gt_cases n (Z.of_nat (length l))) as [Hle|Hgt].
  - rewrite Z.min_l by lia. apply take_ge. rewrite length_drop. lia.
  - rewrite !drop_ge by lia. apply take_nil.
Qed.

(** ** The syllable counter *)

(** The global matches of [[p]+] are the maximal runs of the class. *)
Lemma matchAll_from_plus_length p rest :
  (forall prev, length (matchAll_from (fun _ s => plus p s) false 0 prev rest)
                = runsFrom p false rest) /\
  (forall prev, length (matchAll_from (fun _ s => plus p s) false
                          (prefixLen p rest) prev rest)
                = runsFrom p true rest).
Proof.
  induction rest as [|c r [IH0 IH1]]; [split; reflexivity|].
  split; intros prev; cbn [matchAll_from prefixLen runsFrom];
    unfold plus; cbn [prefixLen]; destruct (p c); cbn [pred length].
  - now rewrite IH1.
  - apply IH0.
  - apply IH1.
  - apply IH0.
Qed.

Lemma matchAll_plus_length p s :
  length (matchAll (fun _ s => plus p s) false s) = runs p s.
Proof. apply matchAll_from_plus_length. Qed.

Lemma countSyllables_runs word :
  countSyllables word =
  match runs isVowelLower (toLowerCase word) with
  | 0 => 1
  | n => n
  end.
Proof.
  unfold countSyllables.
  rewrite <- (matchAll_plus_length isVowelLower (toLowerCase word)).
  fold re_vowels. now destruct (matchAll re_vowels false (toLowerCase word)).
Qed.

Ltac eqb_false :=
  repeat match goal with
         | |- context [(?a =? ?b)%Z] =>
             rewrite (proj2 (Z.eqb_neq a b)) by lia
         end.

(** Lower-casing a code unit other than U+0130 gives one code unit, a vowel
    exactly when the code unit is a vowel of either case. *)
Lemma lowerUnit_vowel c :
  c <> 304%Z ->
  exists c', lowerUnit c = [c'] /\ isVowelLower c' = isVowel c.
Proof.
  intros Hc. unfold lowerUnit, inRange.
  assert (Hlower : forall x, isVowelLower x =
            ((x =? 97) || ((x =? 101) || ((x =? 105) || ((x =? 111) ||
             ((x =? 117) || ((x =? 121) || false))))))%Z) by reflexivity.
  assert (Hany : forall x, isVowel x =
            ((x =? 97) || ((x =? 101) || ((x =? 105) || ((x =? 111) ||
             ((x =? 117) || ((x =? 121) || ((x =? 65) || ((x =? 69) ||
             ((x =? 73) || ((x =? 79) || ((x =? 85) || ((x =? 89) || false
             ))))))))))))%Z) by reflexivity.
  destruct ((65 <=? c)%Z && (c <=? 90)%Z) eqn:Hup.
  - apply andb_true_iff in Hup as [H1 H2]. apply Z.leb_le in H1, H2.
    exists (c + 32)%Z. split; [reflexivity|]. rewrite Hlower, Hany.
    destruct (Z.eqb_spec c 65) as [->|]; [reflexivity|].
    destruct (Z.eqb_spec c 69) as [->|]; [reflexivity|].
    destruct (Z.eqb_spec c 73) as [->|]; [reflexivity|].
    destruct (Z.eqb_spec c 79) as [->|]; [reflexivity|].
    destruct (Z.eqb_spec c 85) as [->|]; [reflexivity|].
    destruct (Z.eqb_spec c 89) as [->|]; [reflexivity|].
    eqb_false. reflexivity.
  - assert (Hout : (c < 65 \/ 90 < c)%Z).
    { apply andb_false_iff in Hup as [H|H]; apply Z.leb_gt in H; lia. }
    destruct (Z.eqb_spec c 304); [contradiction|].
    destruct (Z.eqb_spec c 8490) as [->|].
    + exists 107%Z. split; reflexivity.
    + exists c. split; [reflexivity|]. rewrite Hlower, Hany.
      rewrite (proj2 (Z.eqb_neq c 65)), (proj2 (Z.eqb_neq c 69)),
        (proj2 (Z.eqb_neq c 73)), (proj2 (Z.eqb_neq c 79)),
        (proj2 (Z.eqb_neq c 85)), (proj2 (Z.eqb_neq c 89)) by lia.
      reflexivity.
Qed.

Lemma runs_toLowerCase word inRun :
  Forall (fun c => c <> 304%Z) word ->
  runsFrom isVowelLower inRun (toLowerCase word) = runsFrom isVowel inRun word.
Proof.
  intros Hword. revert inRun.
  induction Hword as [|c w Hc Hw IH]; intros inRun; [reflexivity|].
  destruct (lowerUnit_vowel c Hc) as [c' [Hl Hv]].
  unfold toLowerCase in *. cbn [flat_map]. rewrite Hl.
  cbn [app runsFrom]. rewrite Hv, !IH. reflexivity.
Qed.

(** A string with the code unit U+0130, the capital I with a dot, is not a
    word of a text ([isWord] does not hold of U+0130), and [countSyllables]
    does not receive it.  Its lower-case form is two code units, [i] and the
    combining dot U+0307: on U+0130 followed by ["ade"] the count would be
    3, for two runs of vowels. *)
Lemma countSyllables_capital_I_with_dot :
  isWord 304 = false /\
  toLowerCase (304%Z :: str "ade") = 105%Z :: 775%Z :: str "ade" /\
  runs isVowel (304%Z :: str "ade") = 2 /\
  countSyllables (304%Z :: str "ade") = 3.
Proof. repeat split. Qed.

(** ** The claims on the score and the adjustment *)

(** C6: a text without sentence or without word has the score 0, a zero that
    the function returns as such; [""] and ["..."] are two such texts. *)
Theorem fleschReadingEase_degenerate :
  (forall text : jsstring,
      length (sentencesOf text) = 0 \/ length (wordsOf text) = 0 ->
      fleschReadingEase text = 0%float) /\
  fleschReadingEase (str "") = 0%float /\
  fleschReadingEase (str "...") = 0%float.
Proof.
  split; [|split; reflexivity].
  intros text Hzero. unfold fleschReadingEase.
  destruct Hzero as [-> | ->]; [reflexivity|].
  now rewrite orb_true_r.
Qed.

Lemma fleschReadingEase_degenerate_witness :
  let text := str "?! ..." in
  length (sentencesOf text) = 0 /\ fleschReadingEase text = 0%float.
Proof.
  cbv zeta. split; [reflexivity|].
  apply (proj1 fleschReadingEase_degenerate (str "?! ...")).
  left. reflexivity.
Defined.

(** C3: a text whose score is inside the band, and the empty text, are
    returned as they are. *)
Theorem adjustReadability_in_band (text : jsstring) (lower upper : float) :
  text = [] \/ inBand lower upper (fleschReadingEase text) = true ->
  adjustReadability text lower upper = text.
Proof.
  intros [-> | Hband]; [reflexivity|].
  unfold adjustReadability. rewrite Hband.
  now destruct (isEmpty text).
Qed.

Lemma adjustReadability_in_band_witness :
  let text := str "a banana is on the table now" in
  fleschReadingEase text = 78.87%float /\
  adjustReadability text 74 82 = text.
Proof.
  cbv zeta. split; [vm_compute; reflexivity|].
  apply (adjustReadability_in_band (str "a banana is on the table now") 74 82).
  right. vm_compute. reflexivity.
Defined.

(** ** Trimming and splitting *)

Lemma dropWhile_split p s :
  exists pre, s = pre ++ dropWhile p s /\ Forall (fun c => p c = true) pre.
Proof.
  induction s as [|c s [pre [IH Hpre]]]; [exists []; now split|].
  simpl. destruct (p c) eqn:Hc; [|exists []; now split].
  exists (c :: pre). split; [simpl; now f_equal|now constructor].
Qed.

Lemma dropWhile_starts s : startsNonSpace (dropWhile isSpace s).
Proof.
  induction s as [|c s IH]; [exact I|].
  simpl. destruct (isSpace c) eqn:Hc; [exact IH|exact Hc].
Qed.

Lemma dropWhile_id s : startsNonSpace s -> dropWhile isSpace s = s.
Proof. destruct s as [|c s]; [reflexivity|]. simpl. now intros ->. Qed.

Lemma dropWhile_Forall (P : Z -> Prop) p s :
  Forall P s -> Forall P (dropWhile p s).
Proof.
  intros H. destruct (dropWhile_split p s) as [pre [Hs _]].
  rewrite Hs in H. now apply Forall_app in H as [_ H].
Qed.

Lemma endsNonSpace_snoc s c : endsNonSpace (s ++ [c]) <-> isSpace c = false.
Proof.
  induction s as [|x s IH]; [reflexivity|].
  simpl. destruct (s ++ [c]) eqn:E; [|exact IH].
  now destruct s.
Qed.

Lemma endsNonSpace_rev s : startsNonSpace s -> endsNonSpace (rev s).
Proof.
  destruct s as [|c s]; [intros _; exact I|]. simpl. intros Hc.
  now apply endsNonSpace_snoc.
Qed.

Lemma startsNonSpace_rev s : endsNonSpace s -> startsNonSpace (rev s).
Proof.
  induction s as [|c s IH] using rev_ind; [intros _; exact I|].
  rewrite rev_app_distr. simpl. now intros H%endsNonSpace_snoc.
Qed.

Lemma endsNonSpace_app a b : b <> [] -> endsNonSpace (a ++ b) <-> endsNonSpace b.
Proof.
  intros Hb. induction a as [|x a IH]; [reflexivity|].
  simpl. destruct (a ++ b) eqn:E; [|exact IH].
  apply app_eq_nil in E as [_ ->]. contradiction.
Qed.

Lemma endsNonSpace_cons c r : r <> [] -> endsNonSpace (c :: r) -> endsNonSpace r.
Proof. destruct r; [contradiction|]. intros _ H. exact H. Qed.

Lemma Forall_endsNonSpace w :
  Forall (fun c => isSpace c = false) w -> endsNonSpace w.
Proof.
  induction 1 as [|c w Hc Hw IH]; [exact I|].
  destruct w; [exact Hc|exact IH].
Qed.

Lemma trim_Forall (P : Z -> Prop) s : Forall P s -> Forall P (trim s).
Proof.
  intros H. unfold trim.
  apply Forall_rev, dropWhile_Forall, Forall_rev, dropWhile_Forall, H.
Qed.

Lemma trim_ends s : endsNonSpace (trim s).
Proof. apply endsNonSpace_rev, dropWhile_starts. Qed.

Lemma trim_starts s : startsNonSpace (trim s).
Proof.
  unfold trim.
  pose proof (dropWhile_starts s) as Ha.
  destruct (dropWhile_split isSpace (rev (dropWhile isSpace s))) as [pre [Hpre _]].
  apply (f_equal (@rev Z)) in Hpre. rewrite rev_involutive, rev_app_distr in Hpre.
  destruct (rev (dropWhile isSpace (rev (dropWhile isSpace s)))) as [|c t];
    [exact I|].
  rewrite Hpre in Ha. exact Ha.
Qed.

Lemma trim_id s : startsNonSpace s -> endsNonSpace s -> trim s = s.
Proof.
  intros Hs He. unfold trim. rewrite (dropWhile_id s Hs).
  rewrite dropWhile_id by now apply startsNonSpace_rev.
  apply rev_involutive.
Qed.

(** Without comma the pattern [/,\s*/] matches nowhere. *)
Lemma split_from_no_comma prev cur rest :
  Forall (fun c => c <> 44%Z) rest ->
  split_from re_comma 0 prev cur rest = [rev cur ++ rest].
Proof.
  intros H. revert prev cur.
  induction H as [|c r Hc Hr IH]; intros prev cur.
  - simpl. now rewrite app_nil_r.
  - cbn [split_from re_comma]. destruct (Z.eqb_spec c 44); [contradiction|].
    rewrite IH. simpl. now rewrite <- app_assoc.
Qed.

Lemma split_no_comma s :
  Forall (fun c => c <> 44%Z) s -> split re_comma s = [s].
Proof.
  intros H. destruct s as [|c r]; [reflexivity|].
  unfold split. now rewrite split_from_no_comma.
Qed.

Lemma re_spaces_cons prev c r :
  re_spaces prev (c :: r) =
  if isSpace c then Some (S (prefixLen isSpace r)) else None.
Proof. unfold re_spaces, plus. simpl. now destruct (isSpace c). Qed.

(** The pieces between the runs of white space of a trimmed string. *)
Lemma split_from_spaces_good rest : forall skip prev cur,
  Forall (fun c => isSpace c = false) cur ->
  (skip <> 0 -> skip = prefixLen isSpace rest) ->
  (skip = 0 -> cur = [] -> rest <> [] /\ startsNonSpace rest) ->
  endsNonSpace rest ->
  Forall goodWord (split_from re_spaces skip prev cur rest).
Proof.
  induction rest as [|c r IH]; intros skip prev cur Hcur Hskip Hstart Hend.
  - assert (skip = 0) as -> by (destruct skip; [reflexivity|now specialize (Hskip ltac:(lia))]).
    constructor; [|constructor]. split; [|now apply Forall_rev].
    intros Hnil. apply (f_equal (@rev Z)) in Hnil. rewrite rev_involutive in Hnil.
    now destruct (Hstart eq_refl Hnil).
  - assert (Hafter : isSpace c = true ->
              Forall goodWord
                (split_from re_spaces (prefixLen isSpace r) (c :: prev) [] r)).
    { intros Hc. assert (Hr : r <> []).
      { intros ->. simpl in Hend. congruence. }
      apply IH; [constructor|reflexivity| |now apply (endsNonSpace_cons c)].
      intros Hk _. split; [exact Hr|].
      destruct r as [|c' r']; [contradiction|]. simpl in Hk |- *.
      now destruct (isSpace c'). }
    destruct skip as [|k].
    + cbn [split_from]. rewrite re_spaces_cons.
      destruct (isSpace c) eqn:Hc.
      * constructor; [|now apply Hafter].
        split; [|now apply Forall_rev].
        intros Hnil. apply (f_equal (@rev Z)) in Hnil.
        rewrite rev_involutive in Hnil.
        destruct (Hstart eq_refl Hnil) as [_ Hs]. simpl in Hs. congruence.
      * apply IH; [now constructor|intros []; reflexivity|discriminate|].
        destruct r; [exact I|exact Hend].
    + cbn [split_from]. specialize (Hskip ltac:(lia)). simpl in Hskip.
      destruct (isSpace c) eqn:Hc; [|discriminate].
      injection Hskip as ->. now apply Hafter.
Qed.

Lemma split_spaces_good s :
  s <> [] -> startsNonSpace s -> endsNonSpace s ->
  Forall goodWord (split re_spaces s).
Proof.
  intros Hne Hs He. destruct s as [|c r]; [contradiction|].
  unfold split. apply split_from_spaces_good.
  - constructor.
  - intros []. reflexivity.
  - intros _ _. now split.
  - exact He.
Qed.

Lemma join_good (ws : list jsstring) :
  Forall goodWord ws -> ws <> [] ->
  join (str " ") ws <> [] /\
  startsNonSpace (join (str " ") ws) /\ endsNonSpace (join (str " ") ws).
Proof.
  induction 1 as [|w ws [Hne Hw] Hws IH]; [contradiction|]. intros _.
  destruct ws as [|w' ws'].
  - simpl. split; [exact Hne|]. split; [|now apply Forall_endsNonSpace].
    destruct Hw; [contradiction|assumption].
  - destruct IH as [IHne [_ IHe]]; [discriminate|].
    change (join (str " ") (w :: w' :: ws'))
      with (w ++ str " " ++ join (str " ") (w' :: ws')).
    split; [|split].
    + destruct w; [contradiction|discriminate].
    + destruct Hw; [contradiction|assumption].
    + apply endsNonSpace_app; [discriminate|].
      apply (endsNonSpace_app (str " ")); assumption.
Qed.

Lemma trim_join_good (ws : list jsstring) :
  Forall goodWord ws -> trim (join (str " ") ws) = join (str " ") ws.
Proof.
  intros Hws. destruct ws as [|w ws]; [reflexivity|].
  destruct (join_good (w :: ws) Hws) as [_ [Hs He]]; [discriminate|].
  now apply trim_id.
Qed.

Lemma split_from_nonempty m rest : forall skip prev cur,
  split_from m skip prev cur rest <> [].
Proof.
  induction rest as [|c r IH]; intros skip prev cur; [discriminate|].
  cbn [split_from]. destruct skip; [|apply IH].
  destruct (m prev (c :: r)) as [[|k]|]; [destruct cur| |]; try discriminate; apply IH.
Qed.

Lemma split_length m s : s <> [] -> 1 <= length (split m s).
Proof.
  intros Hne. destruct s as [|c r]; [contradiction|]. unfold split.
  pose proof (split_from_nonempty m (c :: r) 0 [] []) as H.
  destruct (split_from m 0 [] [] (c :: r)); [contradiction|simpl; lia].
Qed.

Lemma isEmpty_false s : s <> [] -> isEmpty s = false.
Proof. now destruct s. Qed.

Lemma bisect_take_drop trimmed :
  bisect trimmed =
  let words := split re_spaces trimmed in
  let mid := length words / 2 in
  [join (str " ") (take mid words); join (str " ") (drop mid words)].
Proof.
  unfold bisect. cbv zeta.
  set (words := split re_spaces trimmed).
  assert (Hmid : Z.to_nat (Z.of_nat (length words) / 2) = length words / 2).
  { rewrite <- (Nat2Z.id (length words / 2)). f_equal.
    now rewrite Nat2Z.inj_div. }
  rewrite slice_from_start, slice_to_end, Hmid; [reflexivity| |];
    apply Z.div_pos; lia.
Qed.

(** A text that is not empty and out of the band goes through the loop over
    its sentences. *)
Lemma adjustReadability_sentences (text : jsstring) (lower upper : float) :
  text <> [] ->
  inBand lower upper (fleschReadingEase text) = false ->
  adjustReadability text lower upper =
  join (str " ")
       (flat_map (adjustSentence lower upper) (split re_sentence_gap text)).
Proof.
  intros Hne Hband. unfold adjustReadability.
  now rewrite (isEmpty_false text Hne), Hband.
Qed.

(** ** The claim on the bisection *)

(** C4, as the specification states it, fails, the indices of the words
    counted from 0 as the code does: the sentence ["a b c d"] is out of the
    band and has no comma; its words are cut before index 2, into ["a b"]
    and ["c d"], not after it. *)
Lemma adjustSentence_not_bisect_spec :
  let sent := str "a b c d" in
  inBand 74 82 (fleschReadingEase (trim sent)) = false /\
  Forall (fun c => c <> 44%Z) sent /\
  adjustSentence 74 82 sent = [str "a b"; str "c d"] /\
  bisect_spec (split re_spaces (trim sent)) = [str "a b c"; str "d"] /\
  adjustSentence 74 82 sent <> bisect_spec (split re_spaces (trim sent)).
Proof.
  cbv zeta. split; [vm_compute; reflexivity|].
  split; [repeat constructor; discriminate|].
  split; [vm_compute; reflexivity|].
  split; [vm_compute; reflexivity|].
  vm_compute. discriminate.
Qed.

(** C4 (amended): a sentence out of the band and without comma is cut into
    its words (the pieces between the runs of white space, none empty); the
    first group holds the words before index [floor(n / 2)], the second
    group the words from that index on, each group joined with single
    spaces.  With two words or more both groups are kept, in this order;
    the first group of a sentence of one word is empty and is not kept. *)
Theorem adjustSentence_bisects (lower upper : float) (sent : jsstring) :
  let trimmed := trim sent in
  let words := split re_spaces trimmed in
  let mid := length words / 2 in
  let first := join (str " ") (take mid words) in
  let second := join (str " ") (drop mid words) in
  trimmed <> [] ->
  inBand lower upper (fleschReadingEase trimmed) = false ->
  Forall (fun c => c <> 44%Z) sent ->
  Forall goodWord words /\ 1 <= length words /\
  adjustSentence lower upper sent =
    List.filter (fun part => negb (isEmpty part)) [first; second] /\
  (2 <= length words -> adjustSentence lower upper sent = [first; second]) /\
  (length words = 1 -> adjustSentence lower upper sent = words).
Proof.
  intros trimmed words mid first second Hne Hband Hcomma.
  assert (Hwords : Forall goodWord words).
  { apply split_spaces_good; [exact Hne|apply trim_starts|apply trim_ends]. }
  assert (Hlen : 1 <= length words) by now apply split_length.
  assert (Hadj : adjustSentence lower upper sent =
                 List.filter (fun part => negb (isEmpty part)) [first; second]).
  { unfold adjustSentence. fold trimmed.
    rewrite (isEmpty_false trimmed Hne), Hband.
    rewrite split_no_comma by now apply trim_Forall.
    cbn [length Nat.leb]. rewrite bisect_take_drop. cbv zeta.
    fold words. fold mid. cbn [map]. subst first second.
    rewrite !trim_join_good; [reflexivity| |].
    - now apply Forall_drop.
    - now apply Forall_take. }
  split; [exact Hwords|]. split; [exact Hlen|]. split; [exact Hadj|]. split.
  - intros H2. rewrite Hadj.
    assert (Hmid : 1 <= mid < length words).
    { subst mid. pose proof (Nat.div_mod_eq (length words) 2) as Hdm.
      pose proof (Nat.mod_upper_bound (length words) 2) as Hmod. lia. }
    destruct (join_good (take mid words)) as [Hf _].
    { now apply Forall_take. }
    { intros Hnil. apply (f_equal length) in Hnil.
      rewrite length_take in Hnil. simpl in Hnil. lia. }
    destruct (join_good (drop mid words)) as [Hs _].
    { now apply Forall_drop. }
    { intros Hnil. apply (f_equal length) in Hnil.
      rewrite length_drop in Hnil. simpl in Hnil. lia. }
    fold first in Hf. fold second in Hs. cbn [List.filter].
    destruct first; [contradiction|]. destruct second; [contradiction|].
    reflexivity.
  - intros H1. rewrite Hadj. subst first second mid. rewrite H1.
    destruct words as [|w [|w' ws]]; try discriminate.
    change (1 / 2) with 0. cbn [take drop join List.filter isEmpty negb].
    apply Forall_inv in Hwords. destruct Hwords as [Hw _].
    destruct w; [contradiction|reflexivity].
Qed.

Lemma adjustSentence_bisects_witness :
  let sent := str " one two  three four five " in
  trim sent <> [] /\
  inBand 74 82 (fleschReadingEase (trim sent)) = false /\
  Forall (fun c => c <> 44%Z) sent /\
  split re_spaces (trim sent) =
    [str "one"; str "two"; str "three"; str "four"; str "five"] /\
  adjustSentence 74 82 sent = [str "one two"; str "three four five"].
Proof.
  cbv zeta.
  assert (Hne : trim (str " one two  three four five ") <> [])
    by (vm_compute; discriminate).
  assert (Hband : inBand 74 82
            (fleschReadingEase (trim (str " one two  three four five "))) = false)
    by (vm_compute; reflexivity).
  assert (Hcomma : Forall (fun c => c <> 44%Z) (str " one two  three four five "))
    by (repeat constructor; discriminate).
  split; [exact Hne|]. split; [exact Hband|]. split; [exact Hcomma|].
  split; [vm_compute; reflexivity|].
  destruct (adjustSentence_bisects 74 82 (str " one two  three four five ")
              Hne Hband Hcomma) as [_ [_ [_ [H2 _]]]].
  rewrite H2; [vm_compute; reflexivity|vm_compute; lia].
Defined.

(** ** The words that the adjustment keeps *)

Lemma wordRunsFrom_nonword cur x c y :
  isWord c = false ->
  wordRunsFrom cur (x ++ c :: y) = wordRunsFrom cur x ++ wordRuns y.
Proof.
  intros Hc. revert cur. induction x as [|a x IH]; intros cur; simpl.
  - now rewrite Hc.
  - destruct (isWord a); [apply IH|]. rewrite IH. now rewrite app_assoc.
Qed.

Lemma wordRuns_nonword_prefix pre s :
  Forall (fun c => isWord c = false) pre -> wordRuns (pre ++ s) = wordRuns s.
Proof.
  induction 1 as [|c pre Hc Hpre IH]; [reflexivity|].
  unfold wordRuns in *. simpl. now rewrite Hc.
Qed.

Lemma wordRuns_nonword post :
  Forall (fun c => isWord c = false) post -> wordRuns post = [].
Proof.
  intros H. rewrite <- (app_nil_r post). now rewrite wordRuns_nonword_prefix.
Qed.

Lemma wordRunsFrom_nonword_suffix cur x post :
  Forall (fun c => isWord c = false) post ->
  wordRunsFrom cur (x ++ post) = wordRunsFrom cur x.
Proof.
  intros H. destruct H as [|c post Hc Hpost]; [now rewrite app_nil_r|].
  rewrite wordRunsFrom_nonword by assumption.
  rewrite wordRuns_nonword by assumption. apply app_nil_r.
Qed.

Lemma wordRuns_drop_nonword k s :
  Forall (fun c => isWord c = false) (take k s) -> wordRuns (drop k s) = wordRuns s.
Proof.
  intros H. rewrite <- (take_drop k s) at 2.
  now rewrite wordRuns_nonword_prefix.
Qed.

Lemma split_from_wordRuns m :
  sepSafe m -> forall rest skip prev cur,
  Forall (fun c => isWord c = false) (take skip rest) ->
  (skip <> 0 -> cur = []) ->
  flat_map wordRuns (split_from m skip prev cur rest) = wordRuns (rev cur ++ rest).
Proof.
  intros Hm. induction rest as [|c r IH]; intros skip prev cur Hskip Hcur.
  - simpl. now rewrite !app_nil_r.
  - cbn [split_from]. destruct skip as [|k].
    + destruct (m prev (c :: r)) as [[|k]|] eqn:Hmatch.
      * now destruct (Hm _ _ _ Hmatch) as [[] _].
      * destruct (Hm _ _ _ Hmatch) as [_ Hsep].
        cbn [take] in Hsep. apply Forall_cons in Hsep as [Hc Hsep].
        cbn [flat_map]. rewrite IH; [|exact Hsep|reflexivity].
        unfold wordRuns at 3. now rewrite wordRunsFrom_nonword.
      * rewrite IH; [|now apply Forall_nil|congruence].
        cbn [rev]. now rewrite <- app_assoc.
    + rewrite (Hcur ltac:(discriminate)).
      cbn [take] in Hskip. apply Forall_cons in Hskip as [Hc Hsep].
      rewrite IH; [|exact Hsep|reflexivity].
      unfold wordRuns. simpl. now rewrite Hc.
Qed.

Lemma split_wordRuns m s :
  sepSafe m -> flat_map wordRuns (split m s) = wordRuns s.
Proof.
  intros Hm. destruct s as [|c r].
  - unfold split. now destruct (m [] []).
  - unfold split. rewrite (split_from_wordRuns m Hm); [reflexivity|constructor|].
    intros []. reflexivity.
Qed.

Lemma isSpace_not_word c : isSpace c = true -> isWord c = false.
Proof.
  unfold isSpace, isWord, inRange. intros H.
  repeat match goal with
         | |- context [(?a <=? ?b)%Z] => destruct (Z.leb_spec a b)
         | |- context [(?a =? ?b)%Z] => destruct (Z.eqb_spec a b)
         end; try reflexivity; exfalso;
  repeat match goal with
         | H : context [(?a <=? ?b)%Z] |- _ => destruct (Z.leb_spec a b); try lia
         | H : context [(?a =? ?b)%Z] |- _ => destruct (Z.eqb_spec a b); try lia
         end; simpl in H; try discriminate; lia.
Qed.

Lemma prefixLen_Forall p s : Forall (fun c => p c = true) (take (prefixLen p s) s).
Proof.
  induction s as [|c s IH]; [constructor|].
  simpl. destruct (p c) eqn:Hc; [now constructor|constructor].
Qed.

Lemma prefixLen_spaces_not_word s :
  Forall (fun c => isWord c = false) (take (prefixLen isSpace s) s).
Proof.
  eapply Forall_impl; [apply prefixLen_Forall|].
  intros c. apply isSpace_not_word.
Qed.

Lemma plus_spaces_sepSafe s n :
  plus isSpace s = Some n ->
  n <> 0 /\ Forall (fun c => isWord c = false) (take n s).
Proof.
  unfold plus. pose proof (prefixLen_spaces_not_word s) as H.
  destruct (prefixLen isSpace s) as [|k]; [discriminate|].
  intros [= <-]. split; [discriminate|exact H].
Qed.

Lemma re_spaces_sepSafe : sepSafe re_spaces.
Proof. intros prev rest n. apply plus_spaces_sepSafe. Qed.

Lemma re_sentence_gap_sepSafe : sepSafe re_sentence_gap.
Proof.
  intros prev rest n. unfold re_sentence_gap.
  destruct prev as [|b prev]; [discriminate|].
  destruct (inClass ".!?" b); [apply plus_spaces_sepSafe|discriminate].
Qed.

Lemma re_comma_sepSafe : sepSafe re_comma.
Proof.
  intros prev rest n. unfold re_comma.
  destruct rest as [|c r]; [discriminate|].
  destruct (Z.eqb_spec c 44) as [->|]; [|discriminate].
  intros [= <-]. split; [discriminate|].
  cbn [take]. constructor; [reflexivity|apply prefixLen_spaces_not_word].
Qed.

(** [trim] takes white space off both ends. *)
Lemma trim_split s :
  exists pre post, s = pre ++ trim s ++ post /\
    Forall (fun c => isSpace c = true) pre /\
    Forall (fun c => isSpace c = true) post.
Proof.
  unfold trim.
  destruct (dropWhile_split isSpace s) as [pre [Hs Hpre]].
  destruct (dropWhile_split isSpace (rev (dropWhile isSpace s)))
    as [post [Ha Hpost]].
  exists pre, (rev post). split; [|split; [exact Hpre|now apply Forall_rev]].
  rewrite <- rev_app_distr, <- Ha, rev_involutive. exact Hs.
Qed.

Lemma wordRuns_trim s : wordRuns (trim s) = wordRuns s.
Proof.
  destruct (trim_split s) as [pre [post [Hs [Hpre Hpost]]]].
  rewrite Hs at 2.
  rewrite wordRuns_nonword_prefix
    by (eapply Forall_impl; [exact Hpre|apply isSpace_not_word]).
  unfold wordRuns. rewrite wordRunsFrom_nonword_suffix; [reflexivity|].
  eapply Forall_impl; [exact Hpost|apply isSpace_not_word].
Qed.

Lemma wordRuns_join parts :
  wordRuns (join (str " ") parts) = flat_map wordRuns parts.
Proof.
  induction parts as [|p ps IH]; [reflexivity|].
  destruct ps as [|q ps].
  - simpl. now rewrite app_nil_r.
  - change (join (str " ") (p :: q :: ps))
      with (p ++ 32%Z :: join (str " ") (q :: ps)).
    unfold wordRuns at 1. rewrite wordRunsFrom_nonword by reflexivity.
    rewrite IH. reflexivity.
Qed.

Lemma flat_map_wordRuns_trimmed parts :
  flat_map wordRuns
    (List.filter (fun part => negb (isEmpty part)) (map trim parts)) =
  flat_map wordRuns parts.
Proof.
  induction parts as [|p ps IH]; [reflexivity|].
  cbn [map List.filter flat_map]. rewrite <- (wordRuns_trim p), <- IH.
  now destruct (trim p).
Qed.

Lemma flat_map_wordRuns_adjustSentence lower upper sent :
  flat_map wordRuns (adjustSentence lower upper sent) = wordRuns sent.
Proof.
  unfold adjustSentence. rewrite <- (wordRuns_trim sent).
  destruct (trim sent) as [|c r] eqn:E; [reflexivity|]. rewrite <- E.
  replace (isEmpty (trim sent)) with false by now rewrite E.
  destruct (inBand lower upper (fleschReadingEase (trim sent))).
  { simpl. apply app_nil_r. }
  rewrite flat_map_wordRuns_trimmed.
  destruct (length (split re_comma (trim sent)) <=? 1).
  - rewrite bisect_take_drop. cbv zeta. cbn [flat_map].
    rewrite !wordRuns_join, app_nil_r, <- flat_map_app, take_drop.
    apply split_wordRuns, re_spaces_sepSafe.
  - apply split_wordRuns, re_comma_sepSafe.
Qed.

(** The adjustment keeps the words of the text, in order. *)
Lemma wordRuns_adjustReadability text lower upper :
  wordRuns (adjustReadability text lower upper) = wordRuns text.
Proof.
  unfold adjustReadability.
  destruct (isEmpty text); [reflexivity|].
  destruct (inBand lower upper (fleschReadingEase text)); [reflexivity|].
  rewrite wordRuns_join, <- (split_wordRuns re_sentence_gap text)
    by apply re_sentence_gap_sepSafe.
  induction (split re_sentence_gap text) as [|sent sents IH]; [reflexivity|].
  cbn [flat_map]. rewrite flat_map_app, IH.
  now rewrite flat_map_wordRuns_adjustSentence.
Qed.

(** ** The claim on the tokens *)

(** The first pattern matches at every position that is not the end: the
    pieces that [matchAll] returns cover the text. *)
Lemma re_token_cons prev c r : exists n, re_token prev (c :: r) = Some (S n).
Proof.
  unfold re_token, plus. cbn [prefixLen].
  destruct (isWord c) eqn:Hw; [eauto|].
  destruct (isSpace c) eqn:Hs; cbn [orb negb].
  - eauto.
  - unfold cpLen. destruct r as [|l r]; [eauto|].
    destruct (isHigh c && isLow l); eauto.
Qed.

Lemma matchAll_from_re_token rest : forall skip prev,
  concat (matchAll_from re_token true skip prev rest) = drop skip rest.
Proof.
  induction rest as [|c r IH]; intros skip prev.
  - destruct skip; reflexivity.
  - cbn [matchAll_from]. destruct skip as [|k]; [|apply IH].
    destruct (re_token_cons prev c r) as [n ->].
    cbn [concat pred]. rewrite IH. apply (take_drop (S n) (c :: r)).
Qed.

Lemma matchAll_re_token_lossless text :
  concat (matchAll re_token true text) = text.
Proof. apply matchAll_from_re_token. Qed.

(** C1 does not hold of the code.  The pieces of the text are all there, and
    the loss is inside the words: the syllable pattern matches up to the last
    group of vowels of a word, and the consonants after it belong to no
    match and are dropped.  The tokens of ["world"] spell ["wo"], and those
    of ["Bonjour le monde."] spell ["Bonjou le monde."]. *)
Theorem tokenizeToSyllables_drops_final_consonants :
  matchAll syllRe false (str "world") = [str "wo"] /\
  tokenizeToSyllables (str "world") = [Token syll (str "wo")] /\
  join [] (map text (tokenizeToSyllables (str "world"))) <> str "world" /\
  join [] (map text (tokenizeToSyllables (str "Bonjour le monde.")))
    = str "Bonjou le monde.".
Proof. repeat split. discriminate. Qed.

Lemma syllTexts_app a b : syllTexts (a ++ b) = syllTexts a ++ syllTexts b.
Proof. unfold syllTexts. now rewrite List.filter_app, map_app. Qed.

Lemma syllTexts_syll parts : syllTexts (map (Token syll) parts) = parts.
Proof.
  unfold syllTexts. induction parts as [|p ps IH]; [reflexivity|].
  simpl. now rewrite IH.
Qed.

Lemma isWord_not_space c : isWord c = true -> isSpace c = false.
Proof.
  intros Hw. destruct (isSpace c) eqn:Hs; [|reflexivity].
  apply isSpace_not_word in Hs. congruence.
Qed.

(** A run of word characters gives syllable tokens. *)
Lemma syllTexts_word_run c run :
  isWord c = true -> Forall (fun x => isWord x = true) run ->
  syllTexts (tokensOf (c :: run)) = syllablesOf (c :: run).
Proof.
  intros Hc Hrun. unfold tokensOf.
  assert (Hsp : test_all_spaces (c :: run) = false).
  { simpl. now rewrite (isWord_not_space c Hc). }
  assert (Hpu : test_has_punct (c :: run) = false).
  { unfold test_has_punct. apply not_true_is_false. intros Hex.
    apply existsb_exists in Hex as [x [Hin Hx]].
    assert (Hxw : isWord x = true).
    { destruct Hin as [<-|Hin]; [exact Hc|].
      rewrite Forall_forall in Hrun. apply Hrun. now apply list_elem_of_In. }
    now rewrite Hxw in Hx. }
  rewrite Hsp, Hpu. apply syllTexts_syll.
Qed.

(** The other matches give a separator. *)
Lemma syllTexts_punct c run :
  isWord c = false -> isSpace c = false -> syllTexts (tokensOf (c :: run)) = [].
Proof.
  intros Hw Hs. unfold tokensOf, test_has_punct. cbn [existsb].
  rewrite Hw, Hs. cbn [orb negb]. now rewrite orb_true_r.
Qed.

Lemma syllTexts_spaces c run :
  isSpace c = true -> Forall (fun x => isSpace x = true) run ->
  syllTexts (tokensOf (c :: run)) = [].
Proof.
  intros Hc Hrun. unfold tokensOf.
  assert (Hsp : test_all_spaces (c :: run) = true).
  { cbn [test_all_spaces forallb]. rewrite Hc. apply forallb_forall.
    intros x Hin. rewrite Forall_forall in Hrun. apply Hrun.
    now apply list_elem_of_In. }
  now rewrite Hsp.
Qed.

Lemma flush_rev cur : flush cur = match rev cur with [] => [] | w => [w] end.
Proof.
  destruct cur as [|c cur]; [reflexivity|]. simpl.
  now destruct (rev cur).
Qed.

(** The first run of word characters and the runs after it. *)
Lemma wordRunsFrom_run cur s :
  wordRunsFrom cur s =
  match rev cur ++ take (prefixLen isWord s) s with
  | [] => []
  | w => [w]
  end ++ wordRuns (drop (prefixLen isWord s) s).
Proof.
  revert cur. induction s as [|a s IH]; intros cur.
  - simpl. rewrite !app_nil_r. apply flush_rev.
  - cbn [wordRunsFrom prefixLen]. destruct (isWord a) eqn:Ha.
    + rewrite IH. cbn [rev take drop]. now rewrite <- app_assoc.
    + cbn [take drop]. rewrite app_nil_r, flush_rev.
      unfold wordRuns. cbn [wordRunsFrom]. now rewrite Ha.
Qed.

Lemma wordRuns_run c r :
  isWord c = true ->
  wordRuns (c :: r) =
  (c :: take (prefixLen isWord r) r) :: wordRuns (drop (prefixLen isWord r) r).
Proof.
  intros Hc. unfold wordRuns at 1. rewrite wordRunsFrom_run.
  cbn [prefixLen]. rewrite Hc. reflexivity.
Qed.

Lemma wordRuns_skip c r : isWord c = false -> wordRuns (c :: r) = wordRuns r.
Proof. intros Hc. unfold wordRuns. simpl. now rewrite Hc. Qed.

Lemma isLow_not_word c : isLow c = true -> isWord c = false.
Proof.
  unfold isLow, isWord, inRange. intros H.
  apply andb_true_iff in H as [H1 H2]. apply Z.leb_le in H1, H2.
  repeat match goal with
         | |- context [(?a <=? ?b)%Z] => destruct (Z.leb_spec a b); try lia
         | |- context [(?a =? ?b)%Z] => destruct (Z.eqb_spec a b); try lia
         end; reflexivity.
Qed.

(** The syllable tokens come from the runs of word characters of the text. *)
Lemma syllTexts_matchAll_from rest : forall skip prev,
  syllTexts (flat_map tokensOf (matchAll_from re_token true skip prev rest)) =
  flat_map syllablesOf (wordRuns (drop skip rest)).
Proof.
  induction rest as [|c r IH]; intros skip prev.
  - destruct skip; reflexivity.
  - cbn [matchAll_from]. destruct skip as [|k]; [|apply IH].
    unfold re_token, plus. cbn [prefixLen drop].
    destruct (isWord c) eqn:Hw.
    + cbn [pred flat_map]. rewrite syllTexts_app, IH.
      cbn [take]. rewrite syllTexts_word_run by (assumption || apply prefixLen_Forall).
      now rewrite (wordRuns_run c r Hw).
    + rewrite (wordRuns_skip c r Hw). destruct (isSpace c) eqn:Hs; cbn [orb negb].
      * cbn [pred flat_map]. rewrite syllTexts_app, IH.
        cbn [take]. rewrite syllTexts_spaces by (assumption || apply prefixLen_Forall).
        now rewrite wordRuns_drop_nonword by apply prefixLen_spaces_not_word.
      * unfold cpLen. destruct r as [|l r'].
        { cbn [pred flat_map take]. now rewrite syllTexts_app, IH, syllTexts_punct. }
        destruct (isHigh c && isLow l) eqn:Hpair.
        { cbn [pred flat_map take]. rewrite syllTexts_app, IH, syllTexts_punct by assumption.
          apply andb_true_iff in Hpair as [_ Hl].
          cbn [drop app]. now rewrite (wordRuns_skip l r') by now apply isLow_not_word. }
        { cbn [pred flat_map take]. now rewrite syllTexts_app, IH, syllTexts_punct. }
Qed.

Lemma syllTexts_tokenizeToSyllables text :
  syllTexts (tokenizeToSyllables text) = flat_map syllablesOf (wordRuns text).
Proof. apply (syllTexts_matchAll_from text 0 []). Qed.

(** The adjustment changes neither the syllable tokens nor their number. *)
Lemma syllTexts_adjustReadability text lower upper :
  syllTexts (tokenizeToSyllables (adjustReadability text lower upper)) =
  syllTexts (tokenizeToSyllables text).
Proof.
  now rewrite !syllTexts_tokenizeToSyllables, wordRuns_adjustReadability.
Qed.

(** ** Block sizes *)

Lemma Qceiling_half (t : Z) :
  Qceiling (inject_Z t / 2)%Q = ((t + 1) / 2)%Z.
Proof.
  unfold Qceiling, Qfloor, Qdiv, Qmult, Qinv, Qopp, inject_Z. simpl.
  rewrite Z.mul_1_r.
  Z.div_mod_to_equations. lia.
Qed.

Lemma brownianWalk_S noise base minSize maxSize steps k W :
  brownianWalk noise base minSize maxSize (S steps) k W =
  let W' := (W + noise k)%Q in
  let raw := Qfloor (inject_Z base - Qabs W')%Q in
  let raw := if (raw <? minSize)%Z then minSize else raw in
  let raw := if (raw >? maxSize)%Z then maxSize else raw in
  raw :: brownianWalk noise base minSize maxSize steps (S k) W'.
Proof. reflexivity. Qed.

Lemma brownianWalk_length noise base minSize maxSize steps k W :
  length (brownianWalk noise base minSize maxSize steps k W) = steps.
Proof.
  revert k W. induction steps as [|n IH]; intros k W; [reflexivity|].
  rewrite brownianWalk_S. cbv zeta. rewrite length_cons. now rewrite IH.
Qed.

Lemma brownianWalk_bounds noise base minSize maxSize steps k W :
  (minSize <= maxSize)%Z ->
  Forall (fun size => (minSize <= size <= maxSize)%Z)
         (brownianWalk noise base minSize maxSize steps k W).
Proof.
  intros Hmm. revert k W.
  induction steps as [|n IH]; intros k W; [constructor|].
  rewrite brownianWalk_S. cbv zeta. constructor; [|apply IH].
  generalize (Qfloor (inject_Z base - Qabs (W + noise k))%Q). intros raw.
  destruct (Z.ltb_spec raw minSize).
  - destruct (Z.gtb_spec minSize maxSize); lia.
  - destruct (Z.gtb_spec raw maxSize); lia.
Qed.

(** C2, as the specification states it, fails for [total = 0]: no syllable
    token gives [nBlocks = 0], and the list of sizes still holds the base. *)
Lemma brownianBlockSizes_length_total_0 :
  let total := 0%nat in
  let nBlocks := Qceiling (inject_Z (Z.of_nat total) / 2)%Q in
  let sizes := brownianBlockSizes (fun _ => 0%Q) nBlocks 21 4 12 in
  nBlocks = 0%Z /\ sizes = [21%Z] /\ length sizes <> Z.to_nat nBlocks.
Proof. cbv zeta. repeat split. discriminate. Qed.

(** C2 (amended): for every number [total] of syllable tokens, every noise
    and all sizes with [minSize <= maxSize], the list of sizes computed for
    [nBlocks = ceil(total / 2)] has [max 1 nBlocks] elements (so [nBlocks] of
    them as soon as there is a syllable token), starts with the base,
    unclamped, and has all its other elements in [[minSize, maxSize]]. *)
Theorem brownianBlockSizes_shape noise (total : nat) (base minSize maxSize : Z) :
  (minSize <= maxSize)%Z ->
  let nBlocks := Qceiling (inject_Z (Z.of_nat total) / 2)%Q in
  let sizes := brownianBlockSizes noise nBlocks base minSize maxSize in
  length sizes = Z.to_nat (Z.max 1 nBlocks) /\
  (1 <= total -> length sizes = Z.to_nat nBlocks) /\
  head sizes = Some base /\
  Forall (fun size => (minSize <= size <= maxSize)%Z) (tail sizes).
Proof.
  intros Hmm nBlocks sizes. subst sizes. unfold brownianBlockSizes.
  assert (HnB : nBlocks = ((Z.of_nat total + 1) / 2)%Z) by apply Qceiling_half.
  cbn [length head tail]. rewrite brownianWalk_length.
  repeat split.
  - lia.
  - intros Htotal.
    assert (1 <= nBlocks)%Z by (rewrite HnB; Z.div_mod_to_equations; lia).
    lia.
  - now apply brownianWalk_bounds.
Qed.

Lemma brownianBlockSizes_shape_witness :
  let noise := fun k : nat => (inject_Z (Z.of_nat k) * (7 # 2))%Q in
  let sizes := brownianBlockSizes noise 8 21 4 12 in
  sizes = [21; 12; 12; 10; 4; 4; 4; 4]%Z /\
  length sizes = 8 /\
  head sizes = Some 21%Z /\
  Forall (fun size => (4 <= size <= 12)%Z) (tail sizes).
Proof.
  cbv zeta. split; [reflexivity|].
  pose proof (brownianBlockSizes_shape
                (fun k : nat => (inject_Z (Z.of_nat k) * (7 # 2))%Q) 15 21 4 12) as H.
  destruct H as [_ [Hlen [Hhead Htail]]]; [lia|].
  split; [apply Hlen; lia|]. split; [exact Hhead|exact Htail].
Defined.

(** ** The emphasis test *)

Section Gaussian.

Local Open Scope R_scope.

Lemma exp_above y : y < 0.2 -> exp (- y) > 0.8.
Proof. intros Hy. pose proof (exp_ineq1_le (- y)). lra. Qed.

Lemma exp_below y : 0.25 < y -> exp (- y) < 0.8.
Proof.
  intros Hy. rewrite exp_Ropp.
  pose proof (exp_ineq1_le y) as H.
  assert (H1 : 1.25 < exp y) by lra.
  apply Rinv_lt_contravar in H1; [|apply Rmult_lt_0_compat; [lra|apply exp_pos]].
  lra.
Qed.

Lemma gaussianAsym_nonneg x :
  0 <= x -> gaussianAsym x = exp (- (x * x / (2 * 3.74 * 3.74))).
Proof.
  intros Hx. unfold gaussianAsym, sigmaR.
  destruct (Rle_dec 0 x); [|contradiction]. f_equal. unfold Rdiv. ring.
Qed.

Lemma gaussianAsym_neg x :
  x < 0 -> gaussianAsym x = exp (- (x * x / (2 * 2.41 * 2.41))).
Proof.
  intros Hx. unfold gaussianAsym, sigmaL.
  destruct (Rle_dec 0 x); [lra|]. f_equal. unfold Rdiv. ring.
Qed.

(** The weight of an integer distance is above 0.8 exactly for the distances
    -1, 0, 1 and 2. *)
Lemma emphasised_gaussianAsym (d : Z) :
  gaussianAsym (IZR d) > 0.8 <-> emphasised d = true.
Proof.
  unfold emphasised. rewrite andb_true_iff, !Z.leb_le.
  destruct (Z.le_gt_cases 0 d) as [Hpos|Hneg].
  - rewrite gaussianAsym_nonneg by now apply IZR_le.
    destruct (Z.le_gt_cases d 2) as [Hle|Hgt].
    + split; [lia|]. intros _. apply exp_above.
      assert (0 <= IZR d <= 2) by (split; apply IZR_le; lia). nra.
    + split; [|lia]. intros Hw. exfalso.
      assert (3 <= IZR d) by (apply IZR_le; lia).
      pose proof (exp_below (IZR d * IZR d / (2 * 3.74 * 3.74))) as Hb.
      assert (0.25 < IZR d * IZR d / (2 * 3.74 * 3.74)) by nra. lra.
  - rewrite gaussianAsym_neg by now apply IZR_lt.
    destruct (Z.le_gt_cases (-1) d) as [Hle|Hgt].
    + split; [lia|]. intros _. apply exp_above.
      assert (d = (-1)%Z) as -> by lia. lra.
    + split; [|lia]. intros Hw. exfalso.
      assert (IZR d <= -2) by (apply IZR_le; lia).
      pose proof (exp_below (IZR d * IZR d / (2 * 2.41 * 2.41))) as Hb.
      assert (0.25 < IZR d * IZR d / (2 * 2.41 * 2.41)) by nra. lra.
Qed.

End Gaussian.

(** ** Emphasis: which tokens are wrapped *)

Lemma omap_imap_idxsFrom (f : nat -> token -> option nat) n tokens :
  (forall i t, f i t = match type t with syll => Some (n + i) | sep => None end) ->
  omap (fun i => i) (imap f tokens) = idxsFrom n tokens.
Proof.
  revert f n. induction tokens as [|t ts IH]; intros f n Hf; [reflexivity|].
  cbn [imap omap list_omap idxsFrom]. rewrite Hf.
  assert (Hts : omap (fun i => i) (imap (f ∘ S) ts) = idxsFrom (S n) ts).
  { apply IH. intros i t'. unfold compose. rewrite Hf.
    destruct (type t'); [reflexivity|]. f_equal. lia. }
  destruct (type t); cbn; rewrite Hts; [reflexivity|].
  now rewrite Nat.add_0_r.
Qed.

Lemma syllIdxsOf_idxsFrom tokens : syllIdxsOf tokens = idxsFrom 0 tokens.
Proof. apply omap_imap_idxsFrom. intros i t. reflexivity. Qed.

Lemma idxsFrom_elem n tokens j :
  j ∈ idxsFrom n tokens ->
  n <= j /\ exists t, tokens !! (j - n) = Some t /\ type t = syll.
Proof.
  revert n. induction tokens as [|t ts IH]; intros n Hj; simpl in Hj.
  - now apply elem_of_nil in Hj.
  - assert (Hrec : j ∈ idxsFrom (S n) ts ->
              n <= j /\ exists t', (t :: ts) !! (j - n) = Some t' /\ type t' = syll).
    { intros Hin. destruct (IH _ Hin) as [Hle [t' [Hl Ht']]].
      split; [lia|]. exists t'. split; [|assumption].
      replace (j - n) with (S (j - S n)) by lia. exact Hl. }
    destruct (type t) eqn:Ety; [now apply Hrec|].
    apply elem_of_cons in Hj as [->|Hin]; [|now apply Hrec].
    split; [lia|]. exists t. rewrite Nat.sub_diag. split; [reflexivity|assumption].
Qed.

Lemma idxsFrom_NoDup n tokens : NoDup (idxsFrom n tokens).
Proof.
  revert n. induction tokens as [|t ts IH]; intros n; simpl; [constructor|].
  destruct (type t); [apply IH|].
  apply NoDup_cons. split; [|apply IH].
  intros Hin. apply idxsFrom_elem in Hin. lia.
Qed.

Lemma wrapAll_app js1 js2 tokens :
  wrapAll (js1 ++ js2) tokens = wrapAll js2 (wrapAll js1 tokens).
Proof. apply fold_left_app. Qed.

(** Distinct positions: every token is wrapped once or not at all. *)
Lemma wrapAll_NoDup js tokens :
  NoDup js ->
  wrapAll js tokens =
  imap (fun i t => if bool_decide (i ∈ js) then wrap t else t) tokens.
Proof.
  intros Hnd. revert tokens.
  induction Hnd as [|j js Hj Hnd IH]; intros tokens.
  - apply list_eq. intros i. rewrite list_lookup_imap. simpl.
    now destruct (tokens !! i).
  - change (wrapAll (j :: js) tokens) with (wrapAll js (alter wrap j tokens)).
    rewrite IH. apply list_eq. intros i. rewrite !list_lookup_imap.
    destruct (decide (j = i)) as [->|Hne].
    + rewrite list_lookup_alter_eq. destruct (tokens !! i); [simpl|reflexivity].
      rewrite bool_decide_eq_false_2 by assumption.
      rewrite bool_decide_eq_true_2 by (apply elem_of_cons; now left).
      reflexivity.
    + rewrite list_lookup_alter_ne by assumption.
      destruct (tokens !! i); [simpl|reflexivity]. f_equal.
      assert (Hiff : i ∈ j :: js <-> i ∈ js).
      { rewrite elem_of_cons.
        split; [intros [->|Hin]; [now destruct Hne|exact Hin] | now right]. }
      now rewrite (bool_decide_ext _ _ Hiff).
Qed.

Lemma markFrom_wrapAll center pos block tokens :
  exists js, js `sublist_of` block /\
             markFrom center pos block tokens = wrapAll js tokens.
Proof.
  revert pos tokens. induction block as [|tok_i block IH]; intros pos tokens.
  - exists []. split; [constructor|reflexivity].
  - cbn [markFrom]. destruct (emphasised (Z.of_nat pos - center)).
    + destruct (IH (S pos) (alter wrap tok_i tokens)) as [js [Hsub Heq]].
      exists (tok_i :: js). split; [now apply sublist_skip|exact Heq].
    + destruct (IH (S pos) tokens) as [js [Hsub Heq]].
      exists js. split; [now apply sublist_cons|exact Heq].
Qed.

(** With non-negative sizes the blocks are consecutive pieces of [syllIdxs],
    so the wrapped positions form a sublist of it. *)
Lemma markBlocks_wrapAll syllIdxs sizes idx tokens :
  Forall (fun size => (0 <= size)%Z) sizes -> (0 <= idx)%Z ->
  exists js, js `sublist_of` drop (Z.to_nat idx) syllIdxs /\
             markBlocks syllIdxs sizes idx tokens = wrapAll js tokens.
Proof.
  intros Hsizes. revert idx tokens.
  induction Hsizes as [|size sizes Hsize Hsizes IH]; intros idx tokens Hidx.
  - exists []. split; [apply sublist_nil_l|reflexivity].
  - cbn [markBlocks]. rewrite slice_take_drop by assumption.
    set (rest := drop (Z.to_nat idx) syllIdxs).
    destruct (markFrom_wrapAll (Z.of_nat (length (take (Z.to_nat size) rest)) / 2)
                0 (take (Z.to_nat size) rest) tokens) as [js1 [Hsub1 Heq1]].
    destruct (IH (idx + size)%Z (wrapAll js1 tokens)) as [js2 [Hsub2 Heq2]]; [lia|].
    exists (js1 ++ js2). split.
    + rewrite <- (take_drop (Z.to_nat size) rest).
      apply sublist_app; [assumption|].
      unfold rest. rewrite drop_drop.
      replace (Z.to_nat idx + Z.to_nat size) with (Z.to_nat (idx + size)) by lia.
      assumption.
    + unfold markBlock. rewrite Heq1, Heq2. now rewrite wrapAll_app.
Qed.

(** Past the end of [syllIdxs] every block is empty. *)
Lemma markBlocks_past_end syllIdxs sizes idx tokens :
  Forall (fun size => (0 <= size)%Z) sizes ->
  (Z.of_nat (length syllIdxs) <= idx)%Z ->
  markBlocks syllIdxs sizes idx tokens = tokens.
Proof.
  intros Hsizes. revert idx tokens.
  induction Hsizes as [|size sizes Hsize Hsizes IH]; intros idx tokens Hidx;
    [reflexivity|].
  cbn [markBlocks]. rewrite slice_take_drop by lia.
  rewrite drop_ge by lia. rewrite take_nil.
  apply IH. lia.
Qed.

Lemma default_sizes_nonneg noise nBlocks :
  Forall (fun size => (0 <= size)%Z) (brownianBlockSizes noise nBlocks 21 4 12).
Proof.
  unfold brownianBlockSizes. constructor; [lia|].
  eapply Forall_impl; [apply (brownianWalk_bounds noise 21 4 12); lia|].
  simpl. intros size Hsize. lia.
Qed.

Lemma formatSyllables_wrapAll noise tokens :
  exists js, js `sublist_of` syllIdxsOf tokens /\
             formatSyllables noise tokens = join [] (map text (wrapAll js tokens)).
Proof.
  unfold formatSyllables.
  set (sizes := brownianBlockSizes noise _ 21 4 12).
  destruct (markBlocks_wrapAll (syllIdxsOf tokens) sizes 0 tokens)
    as [js [Hsub Heq]]; [apply default_sizes_nonneg|lia|].
  exists js. split; [exact Hsub|]. now rewrite Heq.
Qed.

Lemma formatSyllables_marks noise tokens :
  exists marks : list bool,
    length marks = length tokens /\
    (forall i t, tokens !! i = Some t -> marks !! i = Some true -> type t = syll) /\
    formatSyllables noise tokens = join [] (zip_with render tokens marks).
Proof.
  destruct (formatSyllables_wrapAll noise tokens) as [js [Hsub Heq]].
  assert (Hnd : NoDup js).
  { eapply sublist_NoDup; [|exact Hsub].
    rewrite syllIdxsOf_idxsFrom. apply idxsFrom_NoDup. }
  exists (imap (fun i _ => bool_decide (i ∈ js)) tokens).
  split; [apply length_imap|]. split.
  - intros i t Hi Hm. rewrite list_lookup_imap, Hi in Hm. simpl in Hm.
    injection Hm as Hm. apply bool_decide_eq_true_1 in Hm.
    pose proof (elem_of_sublist _ _ _ Hm Hsub) as Hin.
    rewrite syllIdxsOf_idxsFrom in Hin.
    apply idxsFrom_elem in Hin as [_ [t' [Hl Ht']]].
    rewrite Nat.sub_0_r in Hl. congruence.
  - rewrite Heq, (wrapAll_NoDup _ _ Hnd). f_equal.
    apply list_eq. intros i.
    rewrite list_lookup_fmap, lookup_zip_with, !list_lookup_imap.
    destruct (tokens !! i) as [t|]; [simpl|reflexivity].
    now destruct (bool_decide (i ∈ js)).
Qed.

(** At most 21 syllable tokens: the first block takes them all. *)
Lemma formatSyllables_one_block noise tokens :
  length (syllIdxsOf tokens) <= 21 ->
  formatSyllables noise tokens =
  join [] (map text (markBlock (syllIdxsOf tokens) tokens)).
Proof.
  intros Hlen. unfold formatSyllables, brownianBlockSizes.
  cbn [markBlocks]. rewrite slice_from_start by lia.
  rewrite take_ge by lia.
  rewrite markBlocks_past_end; [reflexivity| |lia].
  eapply Forall_impl; [apply (brownianWalk_bounds noise 21 4 12); lia|].
  simpl. intros size Hsize. lia.
Qed.

Lemma length_syllIdxsOf tokens :
  length (syllIdxsOf tokens) = length (syllTexts tokens).
Proof.
  rewrite syllIdxsOf_idxsFrom. unfold syllTexts. generalize 0.
  induction tokens as [|t ts IH]; intros n; [reflexivity|].
  simpl. unfold isSyll. destruct (type t); simpl; now rewrite IH.
Qed.

(** C5: for every text and every noise, the result of [processText] is the
    concatenation, in order, of the texts of the tokens of the adjusted text,
    each either as it is or inside one pair of markers; only syllable tokens
    are inside markers.  So no token is wrapped twice (markers do not nest)
    and a marked span is the whole text of one syllable token. *)
Theorem processText_markers noise (text : jsstring) :
  let tokens := tokenizeToSyllables (adjustReadability text 74 82) in
  exists marks : list bool,
    length marks = length tokens /\
    (forall i t, tokens !! i = Some t -> marks !! i = Some true -> type t = syll) /\
    processText noise text = join [] (zip_with render tokens marks).
Proof. intros tokens. apply formatSyllables_marks. Qed.

(** C9: the empty text gives the empty text, whatever the noise: the
    adjustment returns it, there is no token, and nothing is concatenated. *)
Theorem processText_empty noise :
  adjustReadability [] 74 82 = [] /\
  tokenizeToSyllables [] = [] /\
  formatSyllables noise [] = [] /\
  processText noise [] = [].
Proof. repeat split. Qed.

(** The adjustment keeps the number of syllable tokens. *)
Lemma syllable_count_adjustReadability text lower upper :
  length (syllIdxsOf (tokenizeToSyllables (adjustReadability text lower upper))) =
  length (syllIdxsOf (tokenizeToSyllables text)).
Proof. now rewrite !length_syllIdxsOf, syllTexts_adjustReadability. Qed.

(** C10: when the tokens of the text have at most 21 syllable tokens (the
    tokens of the adjusted text, which [processText] marks, have as many),
    two runs of [processText] with any two noises give the same result: the
    first block, of the fixed size 21, holds every syllable token. *)
Theorem processText_noise_independent noise1 noise2 (text : jsstring) :
  length (syllIdxsOf (tokenizeToSyllables text)) <= 21 \/
  length (syllIdxsOf (tokenizeToSyllables (adjustReadability text 74 82))) <= 21 ->
  processText noise1 text = processText noise2 text.
Proof.
  intros Hlen. rewrite syllable_count_adjustReadability in Hlen.
  assert (Hadj : length (syllIdxsOf
                   (tokenizeToSyllables (adjustReadability text 74 82))) <= 21).
  { rewrite syllable_count_adjustReadability. now destruct Hlen. }
  unfold processText. now rewrite !formatSyllables_one_block by assumption.
Qed.

Lemma processText_noise_independent_witness :
  length (syllIdxsOf (tokenizeToSyllables (str "Bonjour le monde."))) = 5 /\
  processText (fun _ : nat => 0%Q) (str "Bonjour le monde.") =
  processText (fun k : nat => (inject_Z (Z.of_nat k) * (7 # 2))%Q)
              (str "Bonjour le monde.").
Proof.
  split; [vm_compute; reflexivity|].
  apply (processText_noise_independent _ _ (str "Bonjour le monde.")).
  left. vm_compute. lia.
Defined.

(** ** The claim on the bold code points *)

Lemma spread_cons2 c l s :
  spread (c :: l :: s) =
  if isHigh c && isLow l then [c; l] :: spread s else [c] :: spread (l :: s).
Proof. reflexivity. Qed.

Lemma spread_concat chs : wfChars chs -> spread (concat chs) = chs.
Proof.
  induction chs as [|ch rest IH]; [reflexivity|].
  intros [Hch Hrest]. specialize (IH Hrest).
  destruct ch as [|c [|l [|x ch]]]; try contradiction.
  - cbn [concat app]. destruct rest as [|[|l r] rest'].
    + reflexivity.
    + destruct Hrest as [[] _].
    + cbn [concat app] in *. rewrite spread_cons2, Hch. now rewrite IH.
  - cbn [concat app]. rewrite spread_cons2, Hch. now rewrite IH.
Qed.

Lemma spread_head c s :
  exists ch rest, spread (c :: s) = (c :: ch) :: rest.
Proof.
  destruct s as [|l s]; cbn [spread]; [now exists [], []|].
  destruct (isHigh c && isLow l); eauto.
Qed.

Lemma wfChars_spread s : wfChars (spread s).
Proof.
  assert (H : forall n s, length s <= n -> wfChars (spread s)).
  { clear s. induction n as [|n IH]; intros s Hlen.
    - destruct s; [exact I|simpl in Hlen; lia].
    - destruct s as [|c [|l s]]; [exact I|now split|].
      rewrite spread_cons2. destruct (isHigh c && isLow l) eqn:Hpair.
      + split; [exact Hpair|]. apply IH. simpl in Hlen. lia.
      + pose proof (IH (l :: s)) as IHs.
        destruct (spread_head l s) as [ch [rest Heq]]. rewrite Heq in *.
        split; [exact Hpair|apply IHs; simpl in Hlen |- *; lia]. }
  now apply (H (length s)).
Qed.

Lemma codePointAt0_fromCodePoint cp :
  (65536 <= cp < 1114112)%Z ->
  exists h l, fromCodePoint cp = [h; l] /\ isHigh h && isLow l = true /\
              codePointAt0 [h; l] = cp.
Proof.
  intros Hcp. unfold fromCodePoint.
  destruct (Z.ltb_spec cp 65536); [lia|].
  eexists _, _. split; [reflexivity|].
  assert (Hpair : isHigh ((cp - 65536) / 1024 + 55296) &&
                  isLow ((cp - 65536) mod 1024 + 56320) = true).
  { unfold isHigh, isLow, inRange.
    rewrite !andb_true_iff, !Z.leb_le. Z.div_mod_to_equations. lia. }
  split; [exact Hpair|].
  unfold codePointAt0. rewrite Hpair. Z.div_mod_to_equations. lia.
Qed.

(** What [boldChar] does to one code point. *)
Lemma boldChar_codePoint ch :
  codePointAt0 (boldChar ch) = mathBold (codePointAt0 ch) /\
  (boldChar ch = ch \/
   exists h l, boldChar ch = [h; l] /\ isHigh h && isLow l = true).
Proof.
  unfold boldChar, mathBold, inRange.
  set (code := codePointAt0 ch).
  rewrite !Z.geb_leb.
  destruct ((65 <=? code)%Z && (code <=? 90)%Z) eqn:Hup.
  { apply andb_true_iff in Hup as [H1 H2]. apply Z.leb_le in H1, H2.
    destruct (codePointAt0_fromCodePoint (0x1D400 + (code - 65)))
      as [h [l [-> [Hp Hc]]]]; [lia|]. split; [exact Hc|]. right. eauto. }
  destruct ((97 <=? code)%Z && (code <=? 122)%Z) eqn:Hlo.
  { apply andb_true_iff in Hlo as [H1 H2]. apply Z.leb_le in H1, H2.
    destruct (codePointAt0_fromCodePoint (0x1D41A + (code - 97)))
      as [h [l [-> [Hp Hc]]]]; [lia|]. split; [exact Hc|]. right. eauto. }
  destruct ((48 <=? code)%Z && (code <=? 57)%Z) eqn:Hdi.
  { apply andb_true_iff in Hdi as [H1 H2]. apply Z.leb_le in H1, H2.
    destruct (codePointAt0_fromCodePoint (0x1D7CE + (code - 48)))
      as [h [l [-> [Hp Hc]]]]; [lia|]. split; [exact Hc|]. right. eauto. }
  split; [reflexivity|now left].
Qed.

(** A surrogate pair is a code point above U+FFFF: it is left as it is. *)
Lemma boldChar_pair h l :
  isHigh h && isLow l = true -> boldChar [h; l] = [h; l].
Proof.
  intros Hp. unfold boldChar, codePointAt0. rewrite Hp.
  apply andb_true_iff in Hp as [Hh Hl].
  unfold isHigh, isLow, inRange in Hh, Hl.
  apply andb_true_iff in Hh as [Hh1 Hh2]. apply andb_true_iff in Hl as [Hl1 Hl2].
  apply Z.leb_le in Hh1, Hh2, Hl1, Hl2.
  rewrite !Z.geb_leb.
  repeat match goal with
         | |- context [(?a <=? ?b)%Z] => destruct (Z.leb_spec a b); try lia
         end.
  all: reflexivity.
Qed.

Lemma wfChars_boldChar chs : wfChars chs -> wfChars (map boldChar chs).
Proof.
  induction chs as [|ch rest IH]; [intros _; exact I|].
  intros [Hch Hrest]. specialize (IH Hrest). cbn [map wfChars].
  split; [|exact IH].
  destruct ch as [|c [|l [|x ch]]]; try contradiction.
  - destruct (boldChar_codePoint [c]) as [_ [-> | [h [l [-> Hp]]]]]; [|exact Hp].
    destruct rest as [|[|l r] rest']; [exact I|destruct Hrest as [[] _]|].
    cbn [map].
    destruct (boldChar_codePoint (l :: r)) as [_ [-> | [h' [l' [-> Hp]]]]];
      [exact Hch|].
    apply andb_true_iff in Hp as [Hh' _].
    apply andb_false_iff. right.
    unfold isHigh, isLow, inRange in *.
    apply andb_true_iff in Hh' as [H1 H2]. apply Z.leb_le in H1, H2.
    apply andb_false_iff. left. apply Z.leb_gt. lia.
  - now rewrite boldChar_pair.
Qed.

(** C8: the code points of [toUnicodeBold s] are those of [s], the letters
    A-Z, a-z and the digits replaced by the mathematical bold code point at
    the same offset in its range, and the others kept; ["AB9"] gives U+1D400,
    U+1D401 and U+1D7D7, none of them ASCII. *)
Theorem toUnicodeBold_codePoints :
  (forall s : jsstring, codePoints (toUnicodeBold s) = map mathBold (codePoints s)) /\
  toUnicodeBold (str "AB9") = [0xD835; 0xDC00; 0xD835; 0xDC01; 0xD835; 0xDFD7]%Z /\
  codePoints (toUnicodeBold (str "AB9")) = [0x1D400; 0x1D401; 0x1D7D7]%Z /\
  Forall (fun c => (127 < c)%Z) (toUnicodeBold (str "AB9")).
Proof.
  split; [|split; [reflexivity|split; [reflexivity|]]].
  - intros s. unfold codePoints, toUnicodeBold.
    rewrite join_nil_concat, spread_concat
      by (apply wfChars_boldChar, wfChars_spread).
    rewrite !map_map. apply map_ext. intros ch. apply boldChar_codePoint.
  - repeat constructor.
Qed.

(** * Further properties *)

(** ** The code units of the results *)

Lemma split_from_Forall (P : Z -> Prop) m rest : forall skip prev cur,
  Forall P cur -> Forall P rest ->
  Forall (Forall P) (split_from m skip prev cur rest).
Proof.
  induction rest as [|c r IH]; intros skip prev cur Hcur Hrest.
  - constructor; [now apply Forall_rev|constructor].
  - apply Forall_cons in Hrest as [Hc Hr]. cbn [split_from].
    destruct skip as [|k]; [|now apply IH].
    destruct (m prev (c :: r)) as [[|k]|].
    + destruct cur; [apply IH; auto|].
      constructor; [now apply Forall_rev|apply IH; auto].
    + constructor; [now apply Forall_rev|now apply IH].
    + apply IH; [now constructor|assumption].
Qed.

Lemma split_Forall (P : Z -> Prop) m s :
  Forall P s -> Forall (Forall P) (split m s).
Proof.
  intros H. unfold split. destruct s as [|c r].
  - destruct (m [] []); repeat constructor.
  - now apply split_from_Forall.
Qed.

Lemma join_Forall (P : Z -> Prop) sp parts :
  Forall P sp -> Forall (Forall P) parts -> Forall P (join sp parts).
Proof.
  intros Hsp. induction 1 as [|p ps Hp Hps IH]; [constructor|].
  destruct ps as [|q ps]; [exact Hp|].
  change (join sp (p :: q :: ps)) with (p ++ sp ++ join sp (q :: ps)).
  apply Forall_app. split; [exact Hp|]. apply Forall_app. now split.
Qed.

Lemma filter_trim_Forall (P : Z -> Prop) parts :
  Forall (Forall P) parts ->
  Forall (Forall P)
    (List.filter (fun part => negb (isEmpty part)) (map trim parts)).
Proof.
  induction 1 as [|p ps Hp Hps IH]; [constructor|].
  cbn [map List.filter]. destruct (negb (isEmpty (trim p))); [|exact IH].
  constructor; [now apply trim_Forall|exact IH].
Qed.

Lemma adjustSentence_Forall (P : Z -> Prop) lower upper sent :
  P 32%Z -> Forall P sent -> Forall (Forall P) (adjustSentence lower upper sent).
Proof.
  intros Hsp Hsent. unfold adjustSentence.
  pose proof (trim_Forall P sent Hsent) as Htrim.
  destruct (isEmpty (trim sent)); [constructor|].
  destruct (inBand lower upper (fleschReadingEase (trim sent)));
    [now repeat constructor|].
  apply filter_trim_Forall.
  destruct (length (split re_comma (trim sent)) <=? 1); [|now apply split_Forall].
  rewrite bisect_take_drop. cbv zeta.
  pose proof (split_Forall P re_spaces (trim sent) Htrim) as Hwords.
  assert (Hspace : Forall P (str " ")) by now repeat constructor.
  repeat constructor; apply join_Forall; try assumption.
  - now apply Forall_take.
  - now apply Forall_drop.
Qed.

Lemma adjustReadability_Forall (P : Z -> Prop) text lower upper :
  P 32%Z -> Forall P text -> Forall P (adjustReadability text lower upper).
Proof.
  intros Hsp Htext. unfold adjustReadability.
  destruct (isEmpty text); [exact Htext|].
  destruct (inBand lower upper (fleschReadingEase text)); [exact Htext|].
  apply join_Forall; [now repeat constructor|].
  pose proof (split_Forall P re_sentence_gap text Htext) as Hsents.
  induction Hsents as [|sent sents Hsent Hsents IH]; [constructor|].
  cbn [flat_map]. apply Forall_app. split; [|exact IH].
  now apply adjustSentence_Forall.
Qed.

Lemma matchAll_from_Forall (P : Z -> Prop) m u rest : forall skip prev,
  Forall P rest -> Forall (Forall P) (matchAll_from m u skip prev rest).
Proof.
  induction rest as [|c r IH]; intros skip prev Hrest.
  - simpl. destruct skip; [|constructor].
    destruct (m prev []); repeat constructor.
  - pose proof Hrest as Hcr. apply Forall_cons in Hrest as [Hc Hr].
    cbn [matchAll_from]. destruct skip as [|k]; [|now apply IH].
    destruct (m prev (c :: r)) as [[|k]|].
    + constructor; [constructor|now apply IH].
    + constructor; [now apply Forall_take|now apply IH].
    + now apply IH.
Qed.

Lemma syllablesOf_Forall (P : Z -> Prop) tok :
  Forall P tok -> Forall (Forall P) (syllablesOf tok).
Proof.
  intros H. unfold syllablesOf.
  pose proof (matchAll_from_Forall P syllRe false tok 0 [] H) as Hm.
  fold (matchAll syllRe false tok) in Hm.
  destruct (matchAll syllRe false tok); [now repeat constructor|exact Hm].
Qed.

Lemma tokensOf_Forall (P : Z -> Prop) tok :
  Forall P tok -> Forall (fun t => Forall P (text t)) (tokensOf tok).
Proof.
  intros H. unfold tokensOf.
  destruct (test_all_spaces tok || test_has_punct tok); [now repeat constructor|].
  apply Forall_map. now apply syllablesOf_Forall.
Qed.

Lemma tokenizeToSyllables_Forall (P : Z -> Prop) text0 :
  Forall P text0 -> Forall (fun t => Forall P (text t)) (tokenizeToSyllables text0).
Proof.
  intros H. unfold tokenizeToSyllables.
  pose proof (matchAll_from_Forall P re_token true text0 0 [] H) as Hm.
  fold (matchAll re_token true text0) in Hm.
  induction Hm as [|tok toks Htok Htoks IH]; [constructor|].
  cbn [flat_map]. apply Forall_app. split; [now apply tokensOf_Forall|exact IH].
Qed.

(** ** The syllables of a word *)

Lemma prefixLen_stop p s :
  drop (prefixLen p s) s = [] \/
  exists c r, drop (prefixLen p s) s = c :: r /\ p c = false.
Proof.
  induction s as [|a s IH]; [now left|].
  simpl. destruct (p a) eqn:Ha; [exact IH|]. right. now exists a, s.
Qed.

Lemma prefixLen_le p s : prefixLen p s <= length s.
Proof.
  induction s as [|a s IH]; [reflexivity|].
  simpl. destruct (p a); simpl; lia.
Qed.

Lemma matchAll_from_skip m u rest : forall skip prev,
  skip <= length rest ->
  matchAll_from m u skip prev rest =
  matchAll_from m u 0 (rev (take skip rest) ++ prev) (drop skip rest).
Proof.
  induction rest as [|c r IH]; intros skip prev Hskip.
  - simpl in Hskip. now replace skip with 0 by lia.
  - destruct skip as [|k]; [reflexivity|].
    cbn [matchAll_from take drop rev]. rewrite IH by (simpl in Hskip; lia).
    now rewrite <- app_assoc.
Qed.

Lemma matchAll_from_prev m u :
  (forall p1 p2 s, m p1 s = m p2 s) ->
  forall rest skip p1 p2,
  matchAll_from m u skip p1 rest = matchAll_from m u skip p2 rest.
Proof.
  intros Hm. induction rest as [|c r IH]; intros skip p1 p2.
  - simpl. now rewrite (Hm p1 p2).
  - cbn [matchAll_from]. destruct skip as [|k]; [|apply IH].
    rewrite (Hm p1 p2).
    destruct (m p2 (c :: r)) as [[|k]|]; [f_equal; apply IH|f_equal; apply IH|apply IH].
Qed.

(** One step of the global matching with [syllRe]. *)
Lemma matchAll_syllRe_step c r :
  matchAll syllRe false (c :: r) =
  match syllRe [] (c :: r) with
  | Some n => take n (c :: r) :: matchAll syllRe false (drop n (c :: r))
  | None => matchAll syllRe false r
  end.
Proof.
  assert (Hprev : forall p1 p2 s, syllRe p1 s = syllRe p2 s) by reflexivity.
  assert (Hn : forall n, syllRe [] (c :: r) = Some n -> 1 <= n <= length (c :: r)).
  { intros n. unfold syllRe.
    pose proof (prefixLen_le (fun c => negb (isVowel c)) (c :: r)) as H0.
    set (n0 := prefixLen _ (c :: r)) in *.
    pose proof (prefixLen_le isVowel (drop n0 (c :: r))) as H1.
    set (n1 := prefixLen isVowel _) in *.
    pose proof (prefixLen_le (fun c => negb (isVowel c)) (drop (n0 + n1) (c :: r)))
      as H2.
    set (n2 := prefixLen _ (drop (n0 + n1) (c :: r))) in *.
    rewrite !length_drop in *.
    destruct n1 as [|n1]; [discriminate|].
    destruct n2 as [|n2]; [intros [= <-]; lia|].
    destruct (drop (S n2) (drop (n0 + S n1) (c :: r))) as [|v t];
      [intros [= <-]; lia|].
    destruct (isVowel v); intros [= <-]; lia. }
  unfold matchAll at 1. cbn [matchAll_from].
  destruct (syllRe [] (c :: r)) as [n|] eqn:E.
  - destruct (Hn n eq_refl) as [Hn1 Hn2].
    destruct n as [|k]; [lia|]. f_equal. cbn [pred drop].
    rewrite matchAll_from_skip by (simpl in Hn2; lia).
    apply matchAll_from_prev, Hprev.
  - apply matchAll_from_prev, Hprev.
Qed.

Lemma dropWhile_app_all p x y :
  Forall (fun c => p c = true) x -> dropWhile p (x ++ y) = dropWhile p y.
Proof. induction 1 as [|a x Ha Hx IH]; [reflexivity|]. simpl. now rewrite Ha. Qed.

Lemma dropWhile_app_stop p x y :
  dropWhile p x <> [] -> dropWhile p (x ++ y) = dropWhile p x ++ y.
Proof.
  induction x as [|a x IH]; [contradiction|].
  simpl. destruct (p a); [exact IH|reflexivity].
Qed.

Lemma dropWhile_id_when p x :
  match x with c :: _ => p c = false | [] => True end -> dropWhile p x = x.
Proof. destruct x as [|c x]; [reflexivity|]. simpl. now intros ->. Qed.

Lemma dropWhile_nil p x :
  dropWhile p x = [] <-> Forall (fun c => p c = true) x.
Proof.
  induction x as [|a x IH]; [split; constructor|].
  simpl. destruct (p a) eqn:Ha.
  - rewrite IH. split; [now constructor|now intros H%Forall_cons].
  - split; [discriminate|]. intros H%Forall_cons. destruct H. congruence.
Qed.

Lemma dropFinal_nil s :
  dropFinalNonVowels s = [] <-> Forall (fun c => nonVowel c = true) s.
Proof.
  unfold dropFinalNonVowels. split.
  - intros H. apply (f_equal (@rev Z)) in H. rewrite rev_involutive in H.
    apply dropWhile_nil in H. rewrite <- (rev_involutive s). now apply Forall_rev.
  - intros H. apply Forall_rev in H. apply dropWhile_nil in H. now rewrite H.
Qed.

Lemma dropFinal_app_nonVowels a b :
  Forall (fun c => nonVowel c = true) b ->
  dropFinalNonVowels (a ++ b) = dropFinalNonVowels a.
Proof.
  intros H. unfold dropFinalNonVowels. rewrite rev_app_distr.
  now rewrite dropWhile_app_all by now apply Forall_rev.
Qed.

Lemma dropFinal_app a b :
  dropFinalNonVowels b <> [] ->
  dropFinalNonVowels (a ++ b) = a ++ dropFinalNonVowels b.
Proof.
  intros H. unfold dropFinalNonVowels in *. rewrite rev_app_distr.
  rewrite dropWhile_app_stop.
  - now rewrite rev_app_distr, rev_involutive.
  - intros Hnil. apply H. now rewrite Hnil.
Qed.

Lemma dropFinal_vowels b :
  Forall (fun c => isVowel c = true) b -> dropFinalNonVowels b = b.
Proof.
  intros H. unfold dropFinalNonVowels.
  rewrite dropWhile_id_when; [apply rev_involutive|].
  apply Forall_rev in H. destruct H as [|v t Hv Ht]; [exact I|].
  unfold nonVowel. now rewrite Hv.
Qed.

Lemma Forall_nonVowel_drop_nil s :
  prefixLen isVowel (drop (prefixLen nonVowel s) s) = 0 ->
  Forall (fun c => nonVowel c = true) s.
Proof.
  intros H1. pose proof (prefixLen_Forall nonVowel s) as Hn.
  rewrite <- (take_drop (prefixLen nonVowel s) s).
  apply Forall_app. split; [exact Hn|].
  destruct (prefixLen_stop nonVowel s) as [E|[c [r [E Hc]]]];
    rewrite E in *; [constructor|].
  simpl in H1. unfold nonVowel in Hc. apply negb_false_iff in Hc.
  now rewrite Hc in H1.
Qed.

(** The matches of [syllRe] in a string spell it up to its last vowel. *)
Lemma concat_matchAll_syllRe s :
  concat (matchAll syllRe false s) = dropFinalNonVowels s.
Proof.
  assert (H : forall n s, length s <= n ->
              concat (matchAll syllRe false s) = dropFinalNonVowels s).
  { clear s. induction n as [|n IH]; intros s Hlen.
    - destruct s; [reflexivity|simpl in Hlen; lia].
    - destruct s as [|c r]; [reflexivity|].
      rewrite matchAll_syllRe_step. unfold syllRe. fold nonVowel.
      assert (Hr : forall k, 1 <= k -> length (drop k (c :: r)) <= n).
      { intros k Hk. rewrite length_drop. simpl in Hlen |- *. lia. }
      assert (Hr0 : length r <= n) by (simpl in Hlen; lia).
      remember (c :: r) as s eqn:Hs0.
      pose proof (prefixLen_Forall nonVowel s) as Hn0.
      pose proof (prefixLen_le nonVowel s) as Hle0.
      pose proof (Forall_nonVowel_drop_nil s) as Hnone.
      remember (prefixLen nonVowel s) as n0 eqn:En0.
      pose proof (prefixLen_Forall isVowel (drop n0 s)) as Hn1.
      pose proof (prefixLen_le isVowel (drop n0 s)) as Hle1.
      pose proof (prefixLen_stop isVowel (drop n0 s)) as Hstop1.
      rewrite length_drop in Hle1.
      remember (prefixLen isVowel (drop n0 s)) as n1 eqn:En1.
      rewrite drop_drop in Hstop1.
      pose proof (prefixLen_Forall nonVowel (drop (n0 + n1) s)) as Hn2.
      pose proof (prefixLen_stop nonVowel (drop (n0 + n1) s)) as Hstop2.
      remember (prefixLen nonVowel (drop (n0 + n1) s)) as n2 eqn:En2.
      rewrite drop_drop in Hstop2.
      destruct n1 as [|k1].
      + (* no vowel in [s] *)
        specialize (Hnone eq_refl).
        rewrite IH by exact Hr0.
        rewrite (proj2 (dropFinal_nil s) Hnone).
        apply dropFinal_nil. rewrite Hs0 in Hnone.
        now apply Forall_cons in Hnone as [_ Hnone].
      + (* the non-vowels and the vowels that follow them *)
        assert (Ha : dropFinalNonVowels (take (n0 + S k1) s) = take (n0 + S k1) s).
        { rewrite <- (take_drop n0 s) at 1 2.
          rewrite take_app_add' by (rewrite length_take; lia).
          rewrite dropFinal_app; rewrite (dropFinal_vowels _ Hn1); [reflexivity|].
          intros Hnil. apply (f_equal length) in Hnil.
          rewrite length_take, length_drop in Hnil.
          change (length []) with 0 in Hnil. lia. }
        assert (Hcase : Forall (fun c => nonVowel c = true) (drop (n0 + S k1) s) ->
                  concat (take (n0 + S k1) s
                            :: matchAll syllRe false (drop (n0 + S k1) s)) =
                  dropFinalNonVowels s).
        { intros Hs2. cbn [concat]. rewrite IH by (apply Hr; lia).
          rewrite (proj2 (dropFinal_nil _) Hs2), app_nil_r.
          rewrite <- (take_drop (n0 + S k1) s) at 2.
          now rewrite dropFinal_app_nonVowels. }
        destruct n2 as [|k2].
        * apply Hcase. rewrite Nat.add_0_r in Hstop2.
          destruct Hstop1 as [->|[v [t [E Hv]]]]; [constructor|].
          destruct Hstop2 as [E2|[v' [t' [E2 Hv']]]]; rewrite E in E2;
            [discriminate|].
          injection E2 as <- <-. unfold nonVowel in Hv'. now rewrite Hv in Hv'.
        * destruct Hstop2 as [E3|[v [t [E3 Hv]]]].
          { rewrite drop_drop, E3. apply Hcase.
            rewrite <- (take_drop (S k2) (drop (n0 + S k1) s)).
            rewrite drop_drop, E3, app_nil_r. exact Hn2. }
          { rewrite drop_drop, E3.
            unfold nonVowel in Hv. apply negb_false_iff in Hv. rewrite Hv.
            cbn [concat]. rewrite E3.
            rewrite IH by (rewrite <- E3; apply Hr; lia).
            rewrite <- (take_drop (n0 + S k1 + S k2) s) at 2. rewrite E3.
            rewrite dropFinal_app; [reflexivity|].
            intros Hnil. apply dropFinal_nil in Hnil.
            apply Forall_cons in Hnil as [Hn _].
            unfold nonVowel in Hn. now rewrite Hv in Hn. } }
  now apply (H (length s)).
Qed.

Lemma matchAll_from_nonempty m u :
  (forall prev rest n, m prev rest = Some n -> n <> 0 /\ rest <> []) ->
  forall rest skip prev,
  Forall (fun piece => piece <> []) (matchAll_from m u skip prev rest).
Proof.
  intros Hm. induction rest as [|c r IH]; intros skip prev.
  - simpl. destruct skip; [|constructor].
    destruct (m prev []) eqn:E; [|constructor].
    now destruct (Hm _ _ _ E) as [_ []].
  - cbn [matchAll_from]. destruct skip as [|k]; [|apply IH].
    destruct (m prev (c :: r)) as [[|k]|] eqn:E.
    + now destruct (Hm _ _ _ E) as [[] _].
    + constructor; [discriminate|apply IH].
    + apply IH.
Qed.

Lemma syllRe_positive prev rest n :
  syllRe prev rest = Some n -> n <> 0 /\ rest <> [].
Proof.
  unfold syllRe. destruct rest as [|c r]; [discriminate|].
  destruct (prefixLen isVowel _) as [|n1]; [discriminate|].
  destruct (prefixLen _ (drop _ (c :: r))) as [|n2]; [intros [= <-]; split; [lia|discriminate]|].
  destruct (drop (S n2) _) as [|v t]; [intros [= <-]; split; [lia|discriminate]|].
  destruct (isVowel v); intros [= <-]; split; (lia || discriminate).
Qed.

Lemma existsb_isVowel_false s :
  existsb isVowel s = false <-> Forall (fun c => nonVowel c = true) s.
Proof.
  induction s as [|c s IH]; [split; constructor|].
  simpl. destruct (isVowel c) eqn:Ec; simpl.
  - split; [discriminate|]. intros [H _]%Forall_cons.
    unfold nonVowel in H. now rewrite Ec in H.
  - rewrite IH. split.
    + intros H. constructor; [unfold nonVowel; now rewrite Ec|exact H].
    + now intros [_ H]%Forall_cons.
Qed.

(** The syllables of a word spell what is left of it. *)
Lemma concat_syllablesOf w : concat (syllablesOf w) = keepWord w.
Proof.
  unfold syllablesOf, keepWord.
  pose proof (concat_matchAll_syllRe w) as Hc.
  pose proof (matchAll_from_nonempty syllRe false syllRe_positive w 0 []) as Hne.
  fold (matchAll syllRe false w) in Hne.
  destruct (existsb isVowel w) eqn:Ev.
  - destruct (matchAll syllRe false w) as [|p ps]; [|exact Hc].
    symmetry in Hc. apply dropFinal_nil, existsb_isVowel_false in Hc. congruence.
  - apply existsb_isVowel_false, dropFinal_nil in Ev. rewrite Ev in Hc.
    destruct (matchAll syllRe false w) as [|p ps]; [simpl; apply app_nil_r|].
    apply Forall_cons in Hne as [Hp _]. simpl in Hc.
    apply app_eq_nil in Hc as [Hp' _]. contradiction.
Qed.

(** The tokens of a match, by its first code unit. *)
Lemma tokensOf_word c run :
  isWord c = true -> Forall (fun x => isWord x = true) run ->
  tokensOf (c :: run) = map (Token syll) (syllablesOf (c :: run)).
Proof.
  intros Hc Hrun. unfold tokensOf.
  assert (Hsp : test_all_spaces (c :: run) = false).
  { simpl. now rewrite (isWord_not_space c Hc). }
  assert (Hpu : test_has_punct (c :: run) = false).
  { unfold test_has_punct. apply not_true_is_false. intros Hex.
    apply existsb_exists in Hex as [x [Hin Hx]].
    assert (Hxw : isWord x = true).
    { destruct Hin as [<-|Hin]; [exact Hc|].
      rewrite Forall_forall in Hrun. apply Hrun. now apply list_elem_of_In. }
    now rewrite Hxw in Hx. }
  now rewrite Hsp, Hpu.
Qed.

Lemma tokensOf_punct c run :
  isWord c = false -> isSpace c = false ->
  tokensOf (c :: run) = [Token sep (c :: run)].
Proof.
  intros Hw Hs. unfold tokensOf, test_has_punct. cbn [existsb].
  rewrite Hw, Hs. cbn [orb negb]. now rewrite orb_true_r.
Qed.

Lemma tokensOf_spaces c run :
  isSpace c = true -> Forall (fun x => isSpace x = true) run ->
  tokensOf (c :: run) = [Token sep (c :: run)].
Proof.
  intros Hc Hrun. unfold tokensOf.
  assert (Hsp : test_all_spaces (c :: run) = true).
  { cbn [test_all_spaces forallb]. rewrite Hc. apply forallb_forall.
    intros x Hin. rewrite Forall_forall in Hrun. apply Hrun.
    now apply list_elem_of_In. }
  now rewrite Hsp.
Qed.

Lemma map_text_syll parts : map text (map (Token syll) parts) = parts.
Proof. induction parts as [|p ps IH]; [reflexivity|]. simpl. now rewrite IH. Qed.

(** ** The text that the tokens spell *)

Lemma flushWith_rev f cur :
  flushWith f cur = match rev cur with [] => [] | w => f w end.
Proof.
  destruct cur as [|c cur]; [reflexivity|]. simpl. now destruct (rev cur).
Qed.

Lemma mapWordsFrom_run f cur s :
  mapWordsFrom f cur s =
  match rev cur ++ take (prefixLen isWord s) s with
  | [] => []
  | w => f w
  end ++ mapWords f (drop (prefixLen isWord s) s).
Proof.
  revert cur. induction s as [|a s IH]; intros cur.
  - simpl. rewrite !app_nil_r. apply flushWith_rev.
  - cbn [mapWordsFrom prefixLen]. destruct (isWord a) eqn:Ha.
    + rewrite IH. cbn [rev take drop]. now rewrite <- app_assoc.
    + cbn [take drop]. rewrite app_nil_r, flushWith_rev.
      unfold mapWords. cbn [mapWordsFrom]. now rewrite Ha.
Qed.

Lemma mapWords_run f c r :
  isWord c = true ->
  mapWords f (c :: r) =
  f (c :: take (prefixLen isWord r) r) ++ mapWords f (drop (prefixLen isWord r) r).
Proof.
  intros Hc. unfold mapWords at 1. rewrite mapWordsFrom_run.
  cbn [prefixLen]. rewrite Hc. reflexivity.
Qed.

Lemma mapWords_skip f c r :
  isWord c = false -> mapWords f (c :: r) = c :: mapWords f r.
Proof. intros Hc. unfold mapWords. simpl. now rewrite Hc. Qed.

Lemma mapWords_nonword_prefix f k s :
  Forall (fun c => isWord c = false) (take k s) ->
  mapWords f s = take k s ++ mapWords f (drop k s).
Proof.
  revert s. induction k as [|k IH]; intros s H; [reflexivity|].
  destruct s as [|c s]; [reflexivity|].
  cbn [take drop] in *. apply Forall_cons in H as [Hc H].
  rewrite mapWords_skip by assumption. simpl. f_equal. now apply IH.
Qed.

Lemma texts_matchAll_from rest : forall skip prev,
  concat (map text (flat_map tokensOf (matchAll_from re_token true skip prev rest))) =
  mapWords keepWord (drop skip rest).
Proof.
  induction rest as [|c r IH]; intros skip prev.
  - destruct skip; reflexivity.
  - cbn [matchAll_from]. destruct skip as [|k]; [|apply IH].
    unfold re_token, plus. cbn [prefixLen drop].
    destruct (isWord c) eqn:Hw.
    + cbn [pred flat_map take]. rewrite map_app, concat_app, IH.
      rewrite tokensOf_word by (assumption || apply prefixLen_Forall).
      rewrite map_text_syll, concat_syllablesOf.
      now rewrite (mapWords_run keepWord c r Hw).
    + destruct (isSpace c) eqn:Hs; cbn [orb negb].
      * cbn [pred flat_map take]. rewrite map_app, concat_app, IH.
        rewrite tokensOf_spaces by (assumption || apply prefixLen_Forall).
        rewrite (mapWords_nonword_prefix keepWord (S (prefixLen isSpace r)) (c :: r)).
        { simpl. now rewrite app_nil_r. }
        cbn [take]. constructor; [exact Hw|apply prefixLen_spaces_not_word].
      * rewrite (mapWords_skip keepWord c r Hw).
        unfold cpLen. destruct r as [|l r'].
        { cbn [pred flat_map take]. rewrite map_app, concat_app, IH.
          now rewrite tokensOf_punct. }
        destruct (isHigh c && isLow l) eqn:Hpair.
        { cbn [pred flat_map take]. rewrite map_app, concat_app, IH.
          rewrite tokensOf_punct by assumption.
          apply andb_true_iff in Hpair as [_ Hl].
          rewrite (mapWords_skip keepWord l r') by now apply isLow_not_word.
          simpl. now rewrite drop_0. }
        { cbn [pred flat_map take]. rewrite map_app, concat_app, IH.
          now rewrite tokensOf_punct. }
Qed.

(** X1: the tokens spell the text with every word replaced by what is left of
    it: a word without vowel is whole, a word with a vowel stops at its last
    vowel. *)
Theorem tokenizeToSyllables_spells (text0 : jsstring) :
  join [] (map text (tokenizeToSyllables text0)) = mapWords keepWord text0.
Proof.
  rewrite join_nil_concat. apply (texts_matchAll_from text0 0 []).
Qed.

(** X2: the syllables of a word spell the word when it has no vowel, and the
    word up to its last vowel when it has one. *)
Theorem syllablesOf_spells (w : jsstring) :
  concat (syllablesOf w) = keepWord w.
Proof. apply concat_syllablesOf. Qed.

(** ** The shape of the tokens *)

Lemma syllablesOf_nonempty w :
  w <> [] -> Forall (fun piece => piece <> []) (syllablesOf w).
Proof.
  intros Hw. unfold syllablesOf.
  pose proof (matchAll_from_nonempty syllRe false syllRe_positive w 0 []) as Hne.
  fold (matchAll syllRe false w) in Hne.
  destruct (matchAll syllRe false w); [now repeat constructor|exact Hne].
Qed.

Lemma tokenShape_syll parts :
  Forall (fun piece => piece <> []) parts ->
  Forall (Forall (fun c => isWord c = true)) parts ->
  Forall tokenShape (map (Token syll) parts).
Proof.
  induction 1 as [|p ps Hp _ IH]; intros Hw; [constructor|].
  apply Forall_cons in Hw as [Hpw Hw].
  simpl. constructor; [split; assumption|now apply IH].
Qed.

Lemma tokenShape_sep piece :
  piece <> [] -> Forall (fun c => isWord c = false) piece ->
  Forall (fun c => isSpace c = true) piece \/ spread piece = [piece] ->
  Forall tokenShape [Token sep piece].
Proof. intros H1 H2 H3. constructor; [|constructor]. now split. Qed.

Lemma tokenShape_matchAll_from rest : forall skip prev,
  Forall tokenShape (flat_map tokensOf (matchAll_from re_token true skip prev rest)).
Proof.
  induction rest as [|c r IH]; intros skip prev.
  - destruct skip; constructor.
  - cbn [matchAll_from]. destruct skip as [|k]; [|apply IH].
    unfold re_token, plus. cbn [prefixLen].
    destruct (isWord c) eqn:Hw.
    + cbn [pred flat_map take]. apply Forall_app. split; [|apply IH].
      rewrite tokensOf_word by (assumption || apply prefixLen_Forall).
      apply tokenShape_syll.
      * now apply syllablesOf_nonempty.
      * apply syllablesOf_Forall. constructor; [exact Hw|apply prefixLen_Forall].
    + destruct (isSpace c) eqn:Hs; cbn [orb negb].
      * cbn [pred flat_map take]. apply Forall_app. split; [|apply IH].
        rewrite tokensOf_spaces by (assumption || apply prefixLen_Forall).
        apply tokenShape_sep.
        -- discriminate.
        -- constructor; [exact Hw|apply prefixLen_spaces_not_word].
        -- left. constructor; [exact Hs|apply prefixLen_Forall].
      * unfold cpLen. destruct r as [|l r'].
        { cbn [pred flat_map take]. apply Forall_app. split; [|apply IH].
          rewrite tokensOf_punct by assumption.
          apply tokenShape_sep; [discriminate|now repeat constructor|now right]. }
        destruct (isHigh c && isLow l) eqn:Hpair.
        { cbn [pred flat_map take]. apply Forall_app. split; [|apply IH].
          rewrite tokensOf_punct by assumption.
          pose proof Hpair as Hp. apply andb_true_iff in Hp as [_ Hl].
          apply isLow_not_word in Hl.
          apply tokenShape_sep; [discriminate|now repeat constructor|].
          right. now rewrite spread_cons2, Hpair. }
        { cbn [pred flat_map take]. apply Forall_app. split; [|apply IH].
          rewrite tokensOf_punct by assumption.
          apply tokenShape_sep; [discriminate|now repeat constructor|now right]. }
Qed.

(** X3: no token is empty; a syllable token holds word characters only; a
    separator holds none, and is a run of white space or one code point. *)
Theorem tokenizeToSyllables_shape (text0 : jsstring) :
  Forall tokenShape (tokenizeToSyllables text0).
Proof. apply (tokenShape_matchAll_from text0 0 []). Qed.

(** ** What the tokens keep of the text *)

Lemma mapWordsFrom_fixed f s : forall cur,
  Forall (fun w => f w = w) (wordRunsFrom cur s) ->
  mapWordsFrom f cur s = rev cur ++ s.
Proof.
  induction s as [|c r IH]; intros cur H.
  - cbn [mapWordsFrom wordRunsFrom] in *. rewrite app_nil_r.
    destruct cur as [|a cur]; [reflexivity|].
    unfold flush in H. now apply Forall_cons in H as [H _].
  - cbn [mapWordsFrom wordRunsFrom] in *. destruct (isWord c).
    + rewrite IH by assumption. cbn [rev]. now rewrite <- app_assoc.
    + apply Forall_app in H as [Hcur Hr]. rewrite (IH [] Hr). f_equal.
      destruct cur as [|a cur]; [reflexivity|].
      unfold flush in Hcur. now apply Forall_cons in Hcur as [Hcur _].
Qed.

Lemma dropFinal_snoc x v :
  isVowel v = true -> dropFinalNonVowels (x ++ [v]) = x ++ [v].
Proof.
  intros Hv. unfold dropFinalNonVowels. rewrite rev_app_distr. simpl.
  unfold nonVowel. rewrite Hv. simpl. now rewrite rev_involutive.
Qed.

Lemma keepWord_fixed w :
  existsb isVowel w = false \/
  (exists x v, w = x ++ [v] /\ isVowel v = true) ->
  keepWord w = w.
Proof.
  intros [H|(x & v & -> & Hv)]; unfold keepWord.
  - now rewrite H.
  - rewrite dropFinal_snoc by assumption. now destruct (existsb isVowel _).
Qed.

(** X4: when every word of the text has no vowel or ends with a vowel, the
    tokens spell the text. *)
Theorem tokenizeToSyllables_round_trip (text0 : jsstring) :
  Forall (fun w => existsb isVowel w = false \/
                   exists x v, w = x ++ [v] /\ isVowel v = true)
         (wordRuns text0) ->
  join [] (map text (tokenizeToSyllables text0)) = text0.
Proof.
  intros H. rewrite join_nil_concat.
  unfold tokenizeToSyllables, matchAll.
  rewrite (texts_matchAll_from text0 0 []). cbn [drop].
  apply (mapWordsFrom_fixed keepWord text0 []).
  eapply Forall_impl; [exact H|]. apply keepWord_fixed.
Qed.

Lemma tokenizeToSyllables_round_trip_witness :
  join [] (map text (tokenizeToSyllables (str "Hello, la vie - pfff!"))) =
  str "Hello, la vie - pfff!".
Proof.
  apply tokenizeToSyllables_round_trip.
  change (wordRuns (str "Hello, la vie - pfff!"))
    with [str "Hello"; str "la"; str "vie"; str "pfff"].
  constructor; [right; exists (str "Hell"), 111%Z; split; reflexivity|].
  constructor; [right; exists (str "l"), 97%Z; split; reflexivity|].
  constructor; [right; exists (str "vi"), 101%Z; split; reflexivity|].
  constructor; [left; reflexivity|constructor].
Defined.

Lemma dropFinal_split w :
  exists tail, w = dropFinalNonVowels w ++ tail /\
               Forall (fun c => nonVowel c = true) tail.
Proof.
  destruct (dropWhile_split nonVowel (rev w)) as [pre [E Hpre]].
  exists (rev pre). split; [|now apply Forall_rev].
  unfold dropFinalNonVowels. rewrite <- rev_app_distr, <- E.
  now rewrite rev_involutive.
Qed.

Lemma keepWord_split w :
  exists tail, w = keepWord w ++ tail /\
               Forall (fun c => nonVowel c = true) tail.
Proof.
  unfold keepWord. destruct (existsb isVowel w); [apply dropFinal_split|].
  exists []. split; [now rewrite app_nil_r|constructor].
Qed.

Lemma filter_none (p : Z -> bool) s :
  Forall (fun c => p c = false) s -> List.filter p s = [].
Proof.
  induction 1 as [|c s Hc _ IH]; [reflexivity|]. simpl. now rewrite Hc.
Qed.

Lemma filter_kept_keepWord w :
  Forall (fun c => isWord c = true) w ->
  List.filter kept (keepWord w) = List.filter kept w.
Proof.
  intros Hw. destruct (keepWord_split w) as [tail [E Htail]].
  rewrite E at 2. rewrite List.filter_app, (filter_none kept tail).
  { now rewrite app_nil_r. }
  rewrite E in Hw. apply Forall_app in Hw as [_ Hw].
  rewrite Forall_forall in *. intros c Hc.
  specialize (Hw c Hc). specialize (Htail c Hc).
  unfold kept, nonVowel in *. rewrite Hw.
  now destruct (isVowel c).
Qed.

Lemma mapWordsFrom_filter (p : Z -> bool) f s :
  (forall w, Forall (fun c => isWord c = true) w ->
             List.filter p (f w) = List.filter p w) ->
  forall cur, Forall (fun c => isWord c = true) cur ->
  List.filter p (mapWordsFrom f cur s) = List.filter p (rev cur ++ s).
Proof.
  intros Hf.
  assert (Hflush : forall cur, Forall (fun c => isWord c = true) cur ->
            List.filter p (flushWith f cur) = List.filter p (rev cur)).
  { intros [|a cur] H; [reflexivity|]. apply Hf. now apply Forall_rev. }
  induction s as [|c r IH]; intros cur Hcur.
  - cbn [mapWordsFrom]. rewrite app_nil_r. now apply Hflush.
  - cbn [mapWordsFrom]. destruct (isWord c) eqn:Hc.
    + rewrite IH by now constructor. cbn [rev]. now rewrite <- app_assoc.
    + rewrite !List.filter_app, Hflush by assumption. f_equal.
      cbn [List.filter]. rewrite (IH []) by constructor. reflexivity.
Qed.

Lemma mapWordsFrom_sublist f s :
  (forall w, f w `sublist_of` w) ->
  forall cur, mapWordsFrom f cur s `sublist_of` rev cur ++ s.
Proof.
  intros Hf.
  assert (Hflush : forall cur, flushWith f cur `sublist_of` rev cur).
  { intros [|a cur]; [constructor|apply Hf]. }
  induction s as [|c r IH]; intros cur.
  - cbn [mapWordsFrom]. rewrite app_nil_r. apply Hflush.
  - cbn [mapWordsFrom]. destruct (isWord c).
    + specialize (IH (c :: cur)). cbn [rev] in IH. now rewrite <- app_assoc in IH.
    + apply sublist_app; [apply Hflush|]. constructor. apply (IH []).
Qed.

(** X5: the text that the tokens spell is the text with code units left out:
    nothing is added or moved, and no vowel and no code unit that is not a
    word character is left out. *)
Theorem tokenizeToSyllables_keeps (text0 : jsstring) :
  let out := join [] (map text (tokenizeToSyllables text0)) in
  out `sublist_of` text0 /\ List.filter kept out = List.filter kept text0.
Proof.
  cbv zeta. rewrite join_nil_concat.
  unfold tokenizeToSyllables, matchAll.
  rewrite (texts_matchAll_from text0 0 []). cbn [drop]. split.
  - apply (mapWordsFrom_sublist keepWord text0); intros w.
    destruct (keepWord_split w) as [tail [E _]].
    rewrite E at 2. now apply sublist_inserts_r.
  - apply (mapWordsFrom_filter kept keepWord text0 filter_kept_keepWord []).
    constructor.
Qed.

(** X6: the matches of [re] are the pieces of the text, in order and without
    gap. *)
Theorem re_matches_cover (text0 : jsstring) :
  concat (matchAll re_token true text0) = text0.
Proof. apply matchAll_re_token_lossless. Qed.

(** ** The words of the score and of the adjustment *)

Lemma matchAll_from_re_word rest : forall skip prev,
  matchAll_from re_word false skip prev rest = wordRuns (drop skip rest).
Proof.
  induction rest as [|c r IH]; intros skip prev.
  - destruct skip; reflexivity.
  - cbn [matchAll_from]. destruct skip as [|k]; [|apply IH].
    unfold re_word, plus. cbn [prefixLen drop].
    destruct (isWord c) eqn:Hc.
    + cbn [pred take]. rewrite IH. symmetry. now apply wordRuns_run.
    + cbn [pred]. rewrite IH. symmetry. now apply wordRuns_skip.
Qed.

(** The words that the score counts are the maximal runs of word characters. *)
Lemma wordsOf_wordRuns s : wordsOf s = wordRuns s.
Proof. apply (matchAll_from_re_word s 0 []). Qed.

(** X7: the adjustment keeps the words of the text, in order: the words that
    the score counts are the same before and after. *)
Theorem adjustReadability_words (text0 : jsstring) (lower upper : float) :
  wordsOf (adjustReadability text0 lower upper) = wordsOf text0.
Proof. rewrite !wordsOf_wordRuns. apply wordRuns_adjustReadability. Qed.

(** X8: the syllable tokens are the syllables of the words that the score
    counts, word after word. *)
Theorem tokenizeToSyllables_words (text0 : jsstring) :
  syllTexts (tokenizeToSyllables text0) = flat_map syllablesOf (wordsOf text0).
Proof. rewrite wordsOf_wordRuns. apply syllTexts_tokenizeToSyllables. Qed.

(** X9: the adjustment brings in no code unit but the space: what holds of
    the space and of every code unit of the text holds of every code unit of
    the result. *)
Theorem adjustReadability_code_units (P : Z -> Prop) (text0 : jsstring)
    (lower upper : float) :
  P 32%Z -> Forall P text0 -> Forall P (adjustReadability text0 lower upper).
Proof. apply adjustReadability_Forall. Qed.

Lemma adjustReadability_code_units_witness :
  Forall (fun c => (c <? 128)%Z = true)
         (adjustReadability (str "The cat sat, then left. It was gone!") 74 82).
Proof.
  apply (adjustReadability_code_units (fun c => (c <? 128)%Z = true)).
  - reflexivity.
  - repeat (constructor; [reflexivity|]). constructor.
Defined.

(** ** The parts of a sentence out of the band *)

Lemma split_from_pieces (Q : Z -> Prop) m :
  (forall prev s, m prev s <> Some 0) ->
  (forall prev c r, m prev (c :: r) = None -> Q c) ->
  forall rest skip prev cur, Forall Q cur ->
  Forall (Forall Q) (split_from m skip prev cur rest).
Proof.
  intros Hpos Hnone.
  induction rest as [|c r IH]; intros skip prev cur Hcur.
  - simpl. constructor; [now apply Forall_rev|constructor].
  - cbn [split_from]. destruct skip as [|k]; [|apply IH; constructor].
    destruct (m prev (c :: r)) as [[|k]|] eqn:E.
    + now apply Hpos in E.
    + constructor; [now apply Forall_rev|apply IH; constructor].
    + apply IH. constructor; [now apply (Hnone prev c r)|exact Hcur].
Qed.

Lemma split_pieces (Q : Z -> Prop) m s :
  (forall prev s, m prev s <> Some 0) ->
  (forall prev c r, m prev (c :: r) = None -> Q c) ->
  Forall (Forall Q) (split m s).
Proof.
  intros Hpos Hnone. unfold split. destruct s as [|c r].
  - destruct (m [] []); repeat constructor.
  - apply split_from_pieces; (assumption || constructor).
Qed.

Lemma split_comma_pieces s :
  Forall (Forall (fun c => c <> 44%Z)) (split re_comma s).
Proof.
  apply split_pieces.
  - intros prev [|c r]; [discriminate|]. simpl. now destruct (c =? 44)%Z.
  - intros prev c r. simpl. destruct (Z.eqb_spec c 44); [discriminate|trivial].
Qed.

Lemma split_from_comma_length rest : forall skip prev cur,
  Exists (fun c => c = 44%Z) (drop skip rest) ->
  2 <= length (split_from re_comma skip prev cur rest).
Proof.
  induction rest as [|c r IH]; intros skip prev cur H.
  - destruct skip; now apply Exists_nil in H.
  - cbn [split_from]. destruct skip as [|k]; [|now apply IH].
    cbn [drop] in H. simpl. destruct (Z.eqb_spec c 44) as [->|Hc].
    + pose proof (split_from_nonempty re_comma r (prefixLen isSpace r)
                    (44%Z :: prev) []) as Hne.
      destruct (split_from re_comma _ _ _ r); [contradiction|simpl; lia].
    + apply IH. apply Exists_cons in H as [H|H]; [contradiction|exact H].
Qed.

Lemma split_comma_single s :
  length (split re_comma s) <= 1 -> Forall (fun c => c <> 44%Z) s.
Proof.
  intros Hlen. apply Forall_forall. intros c Hin ->.
  assert (Hex : Exists (fun c => c = 44%Z) s).
  { apply Exists_exists. now exists 44%Z. }
  destruct s as [|a s]; [now apply Exists_nil in Hex|].
  pose proof (split_from_comma_length (a :: s) 0 [] [] Hex) as H2.
  unfold split in Hlen. lia.
Qed.

Lemma filter_Forall {A} (P : A -> Prop) (p : A -> bool) l :
  Forall P l -> Forall P (List.filter p l).
Proof.
  induction 1 as [|x l Hx _ IH]; [constructor|].
  simpl. destruct (p x); [now constructor|exact IH].
Qed.

Lemma bisect_Forall (P : Z -> Prop) trimmed :
  P 32%Z -> Forall P trimmed -> Forall (Forall P) (bisect trimmed).
Proof.
  intros Hsp H. rewrite bisect_take_drop. cbv zeta.
  pose proof (split_Forall P re_spaces trimmed H) as Hw.
  repeat constructor; apply join_Forall;
    (now repeat constructor) || (now apply Forall_take) || (now apply Forall_drop).
Qed.

(** X10: a sentence whose score is out of the band is pushed in parts that
    hold no comma. *)
Theorem adjustSentence_no_comma (lower upper : float) (sent : jsstring) :
  inBand lower upper (fleschReadingEase (trim sent)) = false ->
  Forall (Forall (fun c => c <> 44%Z)) (adjustSentence lower upper sent).
Proof.
  intros Hband. unfold adjustSentence.
  destruct (isEmpty (trim sent)); [constructor|]. rewrite Hband.
  apply filter_Forall.
  assert (Hparts : Forall (Forall (fun c => c <> 44%Z))
            (if length (split re_comma (trim sent)) <=? 1
             then bisect (trim sent) else split re_comma (trim sent))).
  { destruct (Nat.leb_spec (length (split re_comma (trim sent))) 1) as [Hle|_].
    - apply bisect_Forall; [discriminate|now apply split_comma_single].
    - apply split_comma_pieces. }
  induction Hparts as [|p ps Hp _ IH]; [constructor|].
  cbn [map]. constructor; [now apply trim_Forall|exact IH].
Qed.

Lemma adjustSentence_no_comma_witness :
  Forall (Forall (fun c => c <> 44%Z))
         (adjustSentence 74 82 (str "However, the committee, yesterday, adjourned.")).
Proof.
  apply adjustSentence_no_comma. vm_compute. reflexivity.
Defined.

(** ** The ends of the rewritten text *)

Lemma join_trimmed (parts : list jsstring) :
  Forall trimmedPart parts -> parts <> [] -> trimmedPart (join (str " ") parts).
Proof.
  induction 1 as [|p ps Hp Hps IH]; [contradiction|]. intros _.
  destruct ps as [|q ps]; [exact Hp|].
  destruct IH as [IHne [_ IHe]]; [discriminate|].
  destruct Hp as [Hne [Hs _]].
  change (join (str " ") (p :: q :: ps))
    with (p ++ str " " ++ join (str " ") (q :: ps)).
  split; [|split].
  - destruct p; [contradiction|discriminate].
  - destruct p; [contradiction|exact Hs].
  - apply endsNonSpace_app; [discriminate|].
    apply (endsNonSpace_app (str " ")); assumption.
Qed.

Lemma trimmed_trim s : trim s <> [] -> trimmedPart (trim s).
Proof. intros H. split; [exact H|]. split; [apply trim_starts|apply trim_ends]. Qed.

Lemma adjustSentence_trimmed lower upper sent :
  Forall trimmedPart (adjustSentence lower upper sent).
Proof.
  unfold adjustSentence.
  destruct (trim sent) as [|c r] eqn:E; [constructor|]. rewrite <- E.
  replace (isEmpty (trim sent)) with false by now rewrite E.
  destruct (inBand lower upper (fleschReadingEase (trim sent))).
  { constructor; [|constructor]. apply trimmed_trim. now rewrite E. }
  induction (if length (split re_comma (trim sent)) <=? 1
             then bisect (trim sent) else split re_comma (trim sent))
    as [|p ps IH]; [constructor|].
  cbn [map List.filter]. destruct (trim p) as [|a t] eqn:Ep; [exact IH|].
  cbn [isEmpty negb]. constructor; [|exact IH].
  rewrite <- Ep. apply trimmed_trim. now rewrite Ep.
Qed.

(** X11: a text that is rewritten, being neither empty nor in the band, comes
    out without white space at its ends. *)
Theorem adjustReadability_trimmed (text0 : jsstring) (lower upper : float) :
  text0 <> [] ->
  inBand lower upper (fleschReadingEase text0) = false ->
  startsNonSpace (adjustReadability text0 lower upper) /\
  endsNonSpace (adjustReadability text0 lower upper).
Proof.
  intros Hne Hband. rewrite adjustReadability_sentences by assumption.
  set (parts := flat_map (adjustSentence lower upper) (split re_sentence_gap text0)).
  assert (Hparts : Forall trimmedPart parts).
  { subst parts. induction (split re_sentence_gap text0) as [|s ss IH];
      [constructor|].
    cbn [flat_map]. apply Forall_app. split; [apply adjustSentence_trimmed|exact IH]. }
  destruct parts as [|p ps] eqn:E; [now split|].
  destruct (join_trimmed (p :: ps) Hparts) as [_ H]; [discriminate|exact H].
Qed.

Lemma adjustReadability_trimmed_witness :
  let out := adjustReadability (str "  Hi there.   Go now!  ") 74 82 in
  startsNonSpace out /\ endsNonSpace out.
Proof.
  cbv zeta. apply adjustReadability_trimmed.
  - discriminate.
  - vm_compute. reflexivity.
Defined.

(** ** What the adjustment keeps of the text *)

Lemma split_from_solid m :
  sepOnly m -> forall rest skip prev cur,
  Forall (fun c => solid c = false) (take skip rest) ->
  (skip <> 0 -> cur = []) ->
  List.filter solid (concat (split_from m skip prev cur rest)) =
  List.filter solid (rev cur ++ rest).
Proof.
  intros Hm. induction rest as [|c r IH]; intros skip prev cur Hskip Hcur.
  - simpl. now rewrite !app_nil_r.
  - cbn [split_from]. destruct skip as [|k].
    + destruct (m prev (c :: r)) as [[|k]|] eqn:Hmatch.
      * now destruct (Hm _ _ _ Hmatch) as [[] _].
      * destruct (Hm _ _ _ Hmatch) as [_ Hsep].
        cbn [take] in Hsep. apply Forall_cons in Hsep as [Hc Hsep].
        cbn [concat]. rewrite !List.filter_app, IH; [|exact Hsep|reflexivity].
        cbn [List.filter rev app]. now rewrite Hc.
      * rewrite IH; [|now apply Forall_nil|congruence].
        cbn [rev]. now rewrite <- app_assoc.
    + rewrite (Hcur ltac:(discriminate)).
      cbn [take] in Hskip. apply Forall_cons in Hskip as [Hc Hsep].
      rewrite IH; [|exact Hsep|reflexivity].
      cbn [List.filter rev app]. now rewrite Hc.
Qed.

Lemma split_solid m s :
  sepOnly m -> List.filter solid (concat (split m s)) = List.filter solid s.
Proof.
  intros Hm. destruct s as [|c r].
  - unfold split. now destruct (m [] []).
  - unfold split. rewrite (split_from_solid m Hm); [reflexivity|constructor|].
    intros []. reflexivity.
Qed.

Lemma isSpace_not_solid c : isSpace c = true -> solid c = false.
Proof. intros H. unfold solid. now rewrite H. Qed.

Lemma plus_spaces_sepOnly s n :
  plus isSpace s = Some n ->
  n <> 0 /\ Forall (fun c => solid c = false) (take n s).
Proof.
  unfold plus. pose proof (prefixLen_Forall isSpace s) as H.
  destruct (prefixLen isSpace s) as [|k]; [discriminate|].
  intros [= <-]. split; [discriminate|].
  eapply Forall_impl; [exact H|apply isSpace_not_solid].
Qed.

Lemma re_spaces_sepOnly : sepOnly re_spaces.
Proof. intros prev rest n. apply plus_spaces_sepOnly. Qed.

Lemma re_sentence_gap_sepOnly : sepOnly re_sentence_gap.
Proof.
  intros prev rest n. unfold re_sentence_gap.
  destruct prev as [|b prev]; [discriminate|].
  destruct (inClass ".!?" b); [apply plus_spaces_sepOnly|discriminate].
Qed.

Lemma re_comma_sepOnly : sepOnly re_comma.
Proof.
  intros prev rest n. unfold re_comma.
  destruct rest as [|c r]; [discriminate|].
  destruct (Z.eqb_spec c 44) as [->|]; [|discriminate].
  intros [= <-]. split; [discriminate|].
  cbn [take]. constructor; [reflexivity|].
  eapply Forall_impl; [apply prefixLen_Forall|apply isSpace_not_solid].
Qed.

Lemma solid_trim s : List.filter solid (trim s) = List.filter solid s.
Proof.
  destruct (trim_split s) as [pre [post [Hs [Hpre Hpost]]]].
  rewrite Hs at 2. rewrite !List.filter_app.
  rewrite (filter_none solid pre), (filter_none solid post).
  - now rewrite app_nil_r.
  - eapply Forall_impl; [exact Hpost|apply isSpace_not_solid].
  - eapply Forall_impl; [exact Hpre|apply isSpace_not_solid].
Qed.

Lemma solid_join parts :
  List.filter solid (join (str " ") parts) = List.filter solid (concat parts).
Proof.
  induction parts as [|p ps IH]; [reflexivity|].
  destruct ps as [|q ps].
  - simpl. now rewrite app_nil_r.
  - change (join (str " ") (p :: q :: ps))
      with (p ++ 32%Z :: join (str " ") (q :: ps)).
    rewrite List.filter_app. cbn [List.filter].
    change (solid 32) with false. cbv iota. rewrite IH.
    change (concat (p :: q :: ps)) with (p ++ concat (q :: ps)).
    now rewrite List.filter_app.
Qed.

Lemma solid_trimmed parts :
  List.filter solid
    (concat (List.filter (fun part => negb (isEmpty part)) (map trim parts))) =
  List.filter solid (concat parts).
Proof.
  induction parts as [|p ps IH]; [reflexivity|].
  cbn [map List.filter concat]. rewrite List.filter_app, <- (solid_trim p), <- IH.
  destruct (trim p); [reflexivity|].
  cbn [isEmpty negb concat]. now rewrite List.filter_app.
Qed.

Lemma solid_adjustSentence lower upper sent :
  List.filter solid (concat (adjustSentence lower upper sent)) =
  List.filter solid sent.
Proof.
  unfold adjustSentence. rewrite <- (solid_trim sent).
  destruct (trim sent) as [|c r] eqn:E; [reflexivity|]. rewrite <- E.
  replace (isEmpty (trim sent)) with false by now rewrite E.
  destruct (inBand lower upper (fleschReadingEase (trim sent))).
  { simpl. now rewrite app_nil_r. }
  rewrite solid_trimmed.
  destruct (length (split re_comma (trim sent)) <=? 1).
  - rewrite bisect_take_drop. cbv zeta. cbn [concat].
    rewrite app_nil_r, List.filter_app, !solid_join, <- List.filter_app.
    rewrite <- concat_app, take_drop.
    apply split_solid, re_spaces_sepOnly.
  - apply split_solid, re_comma_sepOnly.
Qed.

(** X12: the adjustment changes white space and commas only: without them, the
    text and the result are the same sequence of code units. *)
Theorem adjustReadability_keeps (text0 : jsstring) (lower upper : float) :
  List.filter solid (adjustReadability text0 lower upper) =
  List.filter solid text0.
Proof.
  unfold adjustReadability.
  destruct (isEmpty text0); [reflexivity|].
  destruct (inBand lower upper (fleschReadingEase text0)); [reflexivity|].
  rewrite solid_join, <- (split_solid re_sentence_gap text0)
    by apply re_sentence_gap_sepOnly.
  induction (split re_sentence_gap text0) as [|sent sents IH]; [reflexivity|].
  cbn [flat_map concat]. rewrite concat_app, !List.filter_app, IH.
  now rewrite solid_adjustSentence.
Qed.

(** ** The bisection and the text *)

Lemma join_app (a b : list jsstring) :
  a <> [] -> b <> [] ->
  join (str " ") (a ++ b) = join (str " ") a ++ str " " ++ join (str " ") b.
Proof.
  intros Ha Hb. induction a as [|p a IH]; [contradiction|].
  destruct a as [|q a].
  - destruct b; [contradiction|reflexivity].
  - change (join (str " ") ((p :: q :: a) ++ b))
      with (p ++ str " " ++ join (str " ") ((q :: a) ++ b)).
    rewrite IH by discriminate.
    change (join (str " ") (p :: q :: a))
      with (p ++ str " " ++ join (str " ") (q :: a)).
    now rewrite <- !app_assoc.
Qed.

Lemma join_halves (ws : list jsstring) (mid : nat) :
  Forall goodWord ws ->
  join (str " ")
    (List.filter (fun part => negb (isEmpty part))
       [join (str " ") (take mid ws); join (str " ") (drop mid ws)]) =
  join (str " ") ws.
Proof.
  intros Hws.
  assert (Hjoin : forall l, Forall goodWord l -> l <> [] ->
                            isEmpty (join (str " ") l) = false).
  { intros l Hl Hne. destruct (join_good l Hl Hne) as [H _].
    now apply isEmpty_false. }
  rewrite <- (take_drop mid ws) at 3.
  destruct (take mid ws) as [|a ta] eqn:Et.
  - cbn [join List.filter isEmpty negb app].
    destruct (join (str " ") (drop mid ws)); reflexivity.
  - destruct (drop mid ws) as [|b db] eqn:Ed.
    + rewrite app_nil_r. cbn [List.filter]. rewrite Hjoin.
      * reflexivity.
      * rewrite <- Et. now apply Forall_take.
      * discriminate.
    + cbn [List.filter]. rewrite !Hjoin.
      * cbn [negb]. rewrite join_app by discriminate. reflexivity.
      * rewrite <- Ed. now apply Forall_drop.
      * discriminate.
      * rewrite <- Et. now apply Forall_take.
      * discriminate.
Qed.

(** X13: the cut of a sentence without comma does not show in the result: the
    two groups, joined by a space as the result joins them, are the words of
    the sentence joined by single spaces. *)
Theorem adjustSentence_bisect_joined (lower upper : float) (sent : jsstring) :
  inBand lower upper (fleschReadingEase (trim sent)) = false ->
  Forall (fun c => c <> 44%Z) sent ->
  join (str " ") (adjustSentence lower upper sent) =
  join (str " ") (split re_spaces (trim sent)).
Proof.
  intros Hband Hcomma. unfold adjustSentence.
  destruct (trim sent) as [|c r] eqn:E; [reflexivity|]. rewrite <- E in *.
  assert (Hne : trim sent <> []) by now rewrite E.
  rewrite (isEmpty_false _ Hne), Hband.
  rewrite split_no_comma by now apply trim_Forall.
  cbn [length Nat.leb]. rewrite bisect_take_drop. cbv zeta. cbn [map].
  assert (Hwords : Forall goodWord (split re_spaces (trim sent))).
  { apply split_spaces_good; [exact Hne|apply trim_starts|apply trim_ends]. }
  rewrite !trim_join_good by (now apply Forall_take || now apply Forall_drop).
  now apply join_halves.
Qed.

Lemma adjustSentence_bisect_joined_witness :
  join (str " ") (adjustSentence 74 82 (str " one two  three four five ")) =
  join (str " ") (split re_spaces (trim (str " one two  three four five "))).
Proof.
  apply adjustSentence_bisect_joined.
  - vm_compute. reflexivity.
  - repeat constructor; discriminate.
Defined.

(** ** Syllable tokens and the syllables of the score *)

(** How [syllRe] reads a string: no vowel and no match; or a match up to
    the end of the first run of vowels, only non-vowels being left; or a
    match up to the next vowel. *)
Lemma syllRe_cases s :
  (syllRe [] s = None /\ Forall (fun c => nonVowel c = true) s) \/
  (exists a b r, s = a ++ b ++ r /\
     Forall (fun c => nonVowel c = true) a /\
     b <> [] /\ Forall (fun c => isVowel c = true) b /\
     Forall (fun c => nonVowel c = true) r /\
     syllRe [] s = Some (length (a ++ b))) \/
  (exists a b n v t, s = a ++ b ++ n ++ v :: t /\
     Forall (fun c => nonVowel c = true) a /\
     b <> [] /\ Forall (fun c => isVowel c = true) b /\
     n <> [] /\ Forall (fun c => nonVowel c = true) n /\
     isVowel v = true /\
     syllRe [] s = Some (length (a ++ b ++ n))).
Proof.
  unfold syllRe. fold nonVowel.
  pose proof (prefixLen_Forall nonVowel s) as Hn0.
  pose proof (prefixLen_le nonVowel s) as Hle0.
  pose proof (Forall_nonVowel_drop_nil s) as Hnone.
  remember (prefixLen nonVowel s) as n0 eqn:En0.
  pose proof (prefixLen_Forall isVowel (drop n0 s)) as Hn1.
  pose proof (prefixLen_le isVowel (drop n0 s)) as Hle1.
  pose proof (prefixLen_stop isVowel (drop n0 s)) as Hstop1.
  rewrite length_drop in Hle1.
  remember (prefixLen isVowel (drop n0 s)) as n1 eqn:En1.
  rewrite drop_drop in Hstop1.
  pose proof (prefixLen_Forall nonVowel (drop (n0 + n1) s)) as Hn2.
  pose proof (prefixLen_le nonVowel (drop (n0 + n1) s)) as Hle2.
  pose proof (prefixLen_stop nonVowel (drop (n0 + n1) s)) as Hstop2.
  rewrite length_drop in Hle2.
  remember (prefixLen nonVowel (drop (n0 + n1) s)) as n2 eqn:En2.
  rewrite drop_drop in Hstop2.
  destruct n1 as [|k1]; [left; split; [reflexivity|now apply Hnone]|].
  right.
  assert (Hs : s = take n0 s ++ take (S k1) (drop n0 s) ++ drop (n0 + S k1) s).
  { rewrite <- drop_drop, take_drop. now rewrite take_drop. }
  assert (Hb : take (S k1) (drop n0 s) <> []).
  { intros Hnil. apply (f_equal length) in Hnil.
    rewrite length_take, length_drop in Hnil. cbn [length] in Hnil. lia. }
  assert (Hlen : length (take n0 s ++ take (S k1) (drop n0 s)) = n0 + S k1).
  { rewrite length_app, !length_take, length_drop. lia. }
  assert (Hmid : Forall (fun c => nonVowel c = true) (drop (n0 + S k1) s) ->
            exists a b r, s = a ++ b ++ r /\
              Forall (fun c => nonVowel c = true) a /\
              b <> [] /\ Forall (fun c => isVowel c = true) b /\
              Forall (fun c => nonVowel c = true) r /\
              Some (n0 + S k1) = Some (length (a ++ b))).
  { intros Hr. exists (take n0 s), (take (S k1) (drop n0 s)), (drop (n0 + S k1) s).
    rewrite Hlen. now repeat split. }
  destruct n2 as [|k2].
  - left. apply Hmid. rewrite Nat.add_0_r in Hstop2.
    destruct Hstop1 as [->|[v [t [E Hv]]]]; [constructor|].
    destruct Hstop2 as [E2|[v' [t' [E2 Hv']]]]; rewrite E in E2; [discriminate|].
    injection E2 as <- <-. unfold nonVowel in Hv'. now rewrite Hv in Hv'.
  - destruct Hstop2 as [E3|[v [t [E3 Hv]]]].
    + left. rewrite drop_drop, E3. apply Hmid.
      rewrite <- (take_drop (S k2) (drop (n0 + S k1) s)).
      rewrite drop_drop, E3, app_nil_r. exact Hn2.
    + right. rewrite drop_drop, E3.
      unfold nonVowel in Hv. apply negb_false_iff in Hv. rewrite Hv.
      exists (take n0 s), (take (S k1) (drop n0 s)),
        (take (S k2) (drop (n0 + S k1) s)), v, t.
      split; [|repeat split; try assumption].
      * rewrite <- E3, <- (drop_drop s (S k2) (n0 + S k1)), take_drop. exact Hs.
      * intros Hnil. apply (f_equal length) in Hnil.
        rewrite length_take, length_drop in Hnil. cbn [length] in Hnil. lia.
      * rewrite app_assoc, length_app, Hlen, length_take, length_drop.
        f_equal. lia.
Qed.

Lemma runsFrom_none p b s :
  Forall (fun c => p c = false) s -> runsFrom p b s = 0.
Proof.
  intros H. revert b. induction H as [|c s Hc _ IH]; intros b; [reflexivity|].
  simpl. now rewrite Hc.
Qed.

Lemma runsFrom_skip p b x y :
  Forall (fun c => p c = false) x -> x <> [] ->
  runsFrom p b (x ++ y) = runsFrom p false y.
Proof.
  intros H. revert b. induction H as [|c x Hc _ IH]; intros b Hne; [contradiction|].
  cbn [app runsFrom]. rewrite Hc.
  destruct x as [|d x]; [reflexivity|]. now apply IH.
Qed.

Lemma runsFrom_run p x y :
  Forall (fun c => p c = true) x -> runsFrom p true (x ++ y) = runsFrom p true y.
Proof.
  induction 1 as [|c x Hc _ IH]; [reflexivity|].
  cbn [app runsFrom]. now rewrite Hc.
Qed.

Lemma runs_first p a b r :
  Forall (fun c => p c = false) a ->
  b <> [] -> Forall (fun c => p c = true) b ->
  runs p (a ++ b ++ r) = S (runsFrom p true r).
Proof.
  intros Ha Hne Hb. unfold runs.
  assert (Hbr : runsFrom p false (b ++ r) = S (runsFrom p true r)).
  { destruct Hb as [|c b Hc Hb]; [contradiction|].
    cbn [app runsFrom]. rewrite Hc. now rewrite runsFrom_run. }
  destruct a as [|c a]; [exact Hbr|].
  now rewrite runsFrom_skip.
Qed.

Lemma nonVowel_false s :
  Forall (fun c => nonVowel c = true) s -> Forall (fun c => isVowel c = false) s.
Proof.
  intros Hs. eapply Forall_impl; [exact Hs|].
  intros c H. unfold nonVowel in H. now apply negb_true_iff.
Qed.

(** The matches of [syllRe] are as many as the runs of vowels. *)
Lemma length_matchAll_syllRe s :
  length (matchAll syllRe false s) = runs isVowel s.
Proof.
  assert (H : forall n s, length s <= n ->
              length (matchAll syllRe false s) = runs isVowel s).
  { clear s. induction n as [|n IH]; intros s Hlen.
    - destruct s; [reflexivity|simpl in Hlen; lia].
    - destruct s as [|c r]; [reflexivity|].
      rewrite matchAll_syllRe_step.
      destruct (syllRe_cases (c :: r))
        as [[E Hall]|[(a & b & t & Es & Ha & Hne & Hb & Ht & E)
                     |(a & b & m & v & t & Es & Ha & Hne & Hb & Hm & Hmn & Hv & E)]];
        rewrite E.
      + rewrite IH by (simpl in Hlen; lia).
        apply nonVowel_false in Hall. unfold runs.
        rewrite (runsFrom_none isVowel false (c :: r) Hall).
        apply Forall_cons in Hall as [_ Hall]. now apply runsFrom_none.
      + rewrite Es, (app_assoc a b t), take_app_length, drop_app_length.
        rewrite <- app_assoc, runs_first
          by (assumption || now apply nonVowel_false).
        cbn [length]. f_equal.
        rewrite IH.
        * unfold runs. apply nonVowel_false in Ht.
          now rewrite !runsFrom_none.
        * apply (f_equal length) in Es. rewrite !length_app in Es.
          destruct b; [contradiction|]. simpl in Es, Hlen. lia.
      + replace (a ++ b ++ m ++ v :: t) with ((a ++ b ++ m) ++ v :: t) in Es
          by now rewrite <- !app_assoc.
        rewrite Es, take_app_length, drop_app_length.
        rewrite <- !app_assoc, runs_first
          by (assumption || now apply nonVowel_false).
        cbn [length]. f_equal.
        rewrite IH.
        * symmetry. apply runsFrom_skip; [now apply nonVowel_false|assumption].
        * apply (f_equal length) in Es. rewrite !length_app in Es.
          destruct b; [contradiction|]. simpl in Es, Hlen |- *. lia. }
  now apply (H (length s)).
Qed.

Lemma length_syllablesOf w :
  Forall (fun c => c <> 304%Z) w -> length (syllablesOf w) = countSyllables w.
Proof.
  intros Hw. rewrite countSyllables_runs. unfold runs.
  rewrite runs_toLowerCase by exact Hw. fold (runs isVowel w).
  rewrite <- length_matchAll_syllRe. unfold syllablesOf.
  now destruct (matchAll syllRe false w).
Qed.

(** X14: a word without the capital I with a dot has as many syllable tokens
    as the score counts syllables for it. *)
Theorem syllablesOf_countSyllables (w : jsstring) :
  Forall (fun c => c <> 304%Z) w -> length (syllablesOf w) = countSyllables w.
Proof. apply length_syllablesOf. Qed.

Lemma syllablesOf_countSyllables_witness :
  length (syllablesOf (str "Yellow_SUBMARINE")) = countSyllables (str "Yellow_SUBMARINE").
Proof. apply syllablesOf_countSyllables. repeat constructor; discriminate. Defined.

Lemma isWord_not_304 c : isWord c = true -> c <> 304%Z.
Proof. intros H ->. discriminate. Qed.

Lemma flush_words cur :
  Forall (fun c => isWord c = true) cur ->
  Forall (Forall (fun c => isWord c = true)) (flush cur).
Proof.
  intros H. destruct cur as [|a cur]; [constructor|].
  unfold flush. constructor; [now apply Forall_rev|constructor].
Qed.

Lemma wordRunsFrom_words s : forall cur,
  Forall (fun c => isWord c = true) cur ->
  Forall (Forall (fun c => isWord c = true)) (wordRunsFrom cur s).
Proof.
  induction s as [|c r IH]; intros cur Hcur; [now apply flush_words|].
  cbn [wordRunsFrom]. destruct (isWord c) eqn:Hc.
  - apply IH. now constructor.
  - apply Forall_app. split; [now apply flush_words|apply IH; constructor].
Qed.

(** The words that the score counts are made of word characters. *)
Lemma wordsOf_words text0 :
  Forall (Forall (fun c => isWord c = true)) (wordsOf text0).
Proof.
  rewrite wordsOf_wordRuns. apply (wordRunsFrom_words text0 []). constructor.
Qed.

(** C7: [countSyllables] returns a positive number: the number of the
    maximal runs of the letters a, e, i, o, u, y of either case in the
    word, and 1 when there is none.  This holds of every word made of word
    characters, so of every word that [fleschReadingEase], the one caller,
    passes: the matches of [\w+] in a text.  It holds as well of every
    string without the code unit U+0130; on every string the count is that
    of the runs of a, e, i, o, u, y in the lower-cased string.  ["sky"],
    ["banana"] and ["rhythm"] count 1, 3 and 1. *)
Theorem countSyllables_vowel_runs :
  (forall word : jsstring,
      1 <= countSyllables word /\
      countSyllables word =
        match runs isVowelLower (toLowerCase word) with 0 => 1 | n => n end /\
      (Forall (fun c => c <> 304%Z) word ->
       countSyllables word =
         match runs isVowel word with 0 => 1 | n => n end)) /\
  (forall word : jsstring,
      Forall (fun c => isWord c = true) word ->
      countSyllables word =
        match runs isVowel word with 0 => 1 | n => n end) /\
  (forall text0 : jsstring,
      Forall (fun word => countSyllables word =
                match runs isVowel word with 0 => 1 | n => n end)
             (wordsOf text0)) /\
  countSyllables (str "sky") = 1 /\
  countSyllables (str "banana") = 3 /\
  countSyllables (str "rhythm") = 1.
Proof.
  assert (Hruns : forall word, Forall (fun c => c <> 304%Z) word ->
            countSyllables word =
              match runs isVowel word with 0 => 1 | n => n end).
  { intros word Hword. rewrite countSyllables_runs. unfold runs.
    now rewrite runs_toLowerCase. }
  assert (Hwords : forall word, Forall (fun c => isWord c = true) word ->
            countSyllables word =
              match runs isVowel word with 0 => 1 | n => n end).
  { intros word Hword. apply Hruns.
    eapply Forall_impl; [exact Hword|apply isWord_not_304]. }
  split; [|split; [exact Hwords|split; [|repeat split]]].
  - intros word. split; [|split; [apply countSyllables_runs|apply Hruns]].
    rewrite countSyllables_runs.
    destruct (runs isVowelLower (toLowerCase word)); lia.
  - intros text0. eapply Forall_impl; [apply wordsOf_words|].
    intros word. apply Hwords.
Qed.

Lemma countSyllables_vowel_runs_witness :
  let word := str "Yellow_SUBMARINE" in
  Forall (fun c => isWord c = true) word /\
  runs isVowel word = 6 /\
  countSyllables word = 6.
Proof.
  cbv zeta.
  assert (Hword : Forall (fun c => isWord c = true) (str "Yellow_SUBMARINE"))
    by (repeat constructor).
  split; [exact Hword|]. split; [reflexivity|].
  exact (proj1 (proj2 countSyllables_vowel_runs) (str "Yellow_SUBMARINE") Hword).
Defined.

Lemma fold_left_add_shift {A} (f : A -> nat) l (n : nat) :
  fold_left (fun s w => s + f w) l n = n + fold_left (fun s w => s + f w) l 0.
Proof.
  revert n. induction l as [|x l IH]; intros n; [simpl; lia|].
  simpl. rewrite (IH (n + f x)), (IH (f x)). lia.
Qed.

(** X15: the text has as many syllable tokens as the score counts syllables
    in it. *)
Theorem syllable_tokens_total (text0 : jsstring) :
  length (syllIdxsOf (tokenizeToSyllables text0)) =
  fold_left (fun s w => s + countSyllables w) (wordsOf text0) 0.
Proof.
  rewrite length_syllIdxsOf, syllTexts_tokenizeToSyllables, wordsOf_wordRuns.
  pose proof (wordRunsFrom_words text0 [] ltac:(constructor)) as Hw.
  fold (wordRuns text0) in Hw.
  induction Hw as [|w ws Hw _ IH]; [reflexivity|].
  cbn [flat_map fold_left]. rewrite length_app, IH.
  rewrite (fold_left_add_shift countSyllables ws (0 + countSyllables w)).
  rewrite length_syllablesOf; [lia|].
  eapply Forall_impl; [exact Hw|apply isWord_not_304].
Qed.

(** ** The score of the adjusted text *)

Lemma existsb_rev {A} (f : A -> bool) l : existsb f (rev l) = existsb f l.
Proof.
  induction l as [|x l IH]; [reflexivity|].
  simpl. rewrite existsb_app, IH. simpl. rewrite orb_false_r. apply orb_comm.
Qed.

Lemma existsb_none {A} (f : A -> bool) l :
  Forall (fun x => f x = false) l -> existsb f l = false.
Proof. induction 1 as [|x l Hx _ IH]; [reflexivity|]. simpl. now rewrite Hx. Qed.

(** A string that [trim] does not empty holds a code unit other than white
    space. *)
Lemma nonblank_trim p :
  negb (isEmpty (trim p)) = existsb (fun c => negb (isSpace c)) p.
Proof.
  destruct (trim_split p) as [pre [post [Hp [Hpre Hpost]]]].
  rewrite Hp at 2. rewrite !existsb_app.
  rewrite (existsb_none _ pre), (existsb_none _ post).
  - rewrite orb_false_r. cbn [orb].
    pose proof (trim_starts p) as Hs.
    destruct (trim p) as [|c t]; [reflexivity|].
    simpl in Hs. simpl. now rewrite Hs.
  - eapply Forall_impl; [exact Hpost|]. intros c Hc. cbn beta. now rewrite Hc.
  - eapply Forall_impl; [exact Hpre|]. intros c Hc. cbn beta. now rewrite Hc.
Qed.

Lemma sentences_split_from rest : forall skip prev cur,
  (skip <> 0 -> cur = []) ->
  Forall (fun c => inClass ".!?" c = true) (take skip rest) ->
  length (List.filter (fun s => negb (isEmpty (trim s)))
            (split_from re_terminals skip prev cur rest)) =
  sentencesFrom (existsb (fun c => negb (isSpace c)) cur) rest.
Proof.
  induction rest as [|c r IH]; intros skip prev cur Hcur Hskip.
  - cbn [split_from List.filter sentencesFrom].
    rewrite nonblank_trim, existsb_rev. now destruct (existsb _ cur).
  - cbn [split_from sentencesFrom]. destruct skip as [|k].
    + unfold re_terminals, plus. cbn [prefixLen].
      destruct (inClass ".!?" c) eqn:Hc.
      * cbn [List.filter]. rewrite nonblank_trim, existsb_rev.
        pose proof (IH (prefixLen (inClass ".!?") r) (c :: prev) []
                      (fun _ => eq_refl) (prefixLen_Forall _ r)) as Hr.
        cbn [existsb] in Hr. rewrite <- Hr. cbn [pred].
        now destruct (existsb _ cur).
      * rewrite IH; [|congruence|now apply Forall_nil].
        cbn [existsb]. now rewrite orb_comm.
    + rewrite (Hcur ltac:(discriminate)).
      cbn [take] in Hskip. apply Forall_cons in Hskip as [Hc Hskip].
      rewrite Hc. rewrite IH; [reflexivity|reflexivity|exact Hskip].
Qed.

(** The number of the sentences of the score. *)
Lemma length_sentencesOf s : length (sentencesOf s) = sentencesFrom false s.
Proof.
  unfold sentencesOf, split. destruct s as [|c r]; [reflexivity|].
  rewrite sentences_split_from; [reflexivity|congruence|constructor].
Qed.

Lemma isSpace_not_terminal c : isSpace c = true -> inClass ".!?" c = false.
Proof.
  intros H. destruct (inClass ".!?" c) eqn:E; [|reflexivity].
  assert (Hc : c = 46%Z \/ c = 33%Z \/ c = 63%Z).
  { unfold inClass in E. simpl in E.
    repeat match type of E with
           | context [(?a =? ?b)%Z] => destruct (Z.eqb_spec a b); [lia|]
           end. discriminate. }
  destruct Hc as [->|[->| ->]]; discriminate.
Qed.

Lemma sentencesFrom_nonspace s : forall seen,
  sentencesFrom seen (List.filter (fun c => negb (isSpace c)) s) =
  sentencesFrom seen s.
Proof.
  induction s as [|c r IH]; intros seen; [reflexivity|].
  cbn [List.filter sentencesFrom]. destruct (isSpace c) eqn:Hs; cbn [negb].
  - rewrite (isSpace_not_terminal c Hs), orb_false_r. apply IH.
  - cbn [sentencesFrom]. rewrite Hs. cbn [negb].
    destruct (inClass ".!?" c); now rewrite IH.
Qed.

Lemma solid_no_comma s :
  Forall (fun c => c <> 44%Z) s ->
  List.filter solid s = List.filter (fun c => negb (isSpace c)) s.
Proof.
  induction 1 as [|c s Hc _ IH]; [reflexivity|].
  cbn [List.filter]. rewrite IH. unfold solid.
  destruct (Z.eqb_spec c 44); [contradiction|]. now rewrite orb_false_r.
Qed.

(** X16: the adjustment does not change the score of a text without comma:
    the words and the sentences that the score counts are the same before
    and after. *)
Theorem fleschReadingEase_adjustReadability (text0 : jsstring)
    (lower upper : float) :
  Forall (fun c => c <> 44%Z) text0 ->
  fleschReadingEase (adjustReadability text0 lower upper) =
  fleschReadingEase text0.
Proof.
  intros Hcomma.
  assert (Hadj : Forall (fun c => c <> 44%Z) (adjustReadability text0 lower upper))
    by (apply adjustReadability_Forall; [discriminate|exact Hcomma]).
  assert (Hs : length (sentencesOf (adjustReadability text0 lower upper)) =
               length (sentencesOf text0)).
  { rewrite !length_sentencesOf.
    rewrite <- (sentencesFrom_nonspace (adjustReadability text0 lower upper)).
    rewrite <- (sentencesFrom_nonspace text0).
    rewrite <- !solid_no_comma by assumption.
    f_equal. unfold adjustReadability.
    destruct (isEmpty text0); [reflexivity|].
    destruct (inBand lower upper (fleschReadingEase text0)); [reflexivity|].
    rewrite solid_join, <- (split_solid re_sentence_gap text0)
      by apply re_sentence_gap_sepOnly.
    induction (split re_sentence_gap text0) as [|sent sents IH]; [reflexivity|].
    cbn [flat_map concat]. rewrite concat_app, !List.filter_app, IH.
    now rewrite solid_adjustSentence. }
  assert (Hw : wordsOf (adjustReadability text0 lower upper) = wordsOf text0).
  { rewrite !wordsOf_wordRuns. apply wordRuns_adjustReadability. }
  unfold fleschReadingEase. cbv zeta. now rewrite Hs, Hw.
Qed.

Lemma fleschReadingEase_adjustReadability_witness :
  fleschReadingEase
    (adjustReadability (str "The committee adjourned.  It was unanimous!") 74 82) =
  fleschReadingEase (str "The committee adjourned.  It was unanimous!").
Proof.
  apply fleschReadingEase_adjustReadability.
  repeat constructor; discriminate.
Defined.

(** ** Emphasis, block by block *)

(** X17: the weight of an integer distance is above 0.8 for the distances -1,
    0, 1 and 2 and for no other. *)
Theorem gaussianAsym_threshold (d : Z) :
  (gaussianAsym (IZR d) > 0.8)%R <-> (-1 <= d <= 2)%Z.
Proof.
  rewrite emphasised_gaussianAsym. unfold emphasised.
  rewrite andb_true_iff, !Z.leb_le. reflexivity.
Qed.

Lemma exp_le (x y : R) : (x <= y -> exp x <= exp y)%R.
Proof.
  intros [H| ->]; [left; now apply exp_increasing|right; reflexivity].
Qed.

Lemma exp_INR (n : nat) : exp (INR n) = (exp 1 ^ n)%R.
Proof.
  induction n as [|n IH]; [simpl; apply exp_0|].
  rewrite S_INR, exp_plus, IH. simpl. ring.
Qed.

Lemma exp_minus_38 : (/ 3 ^ 38 <= exp (Ropp 38))%R.
Proof.
  rewrite exp_Ropp. apply Rinv_le_contravar; [apply exp_pos|].
  replace 38%R with (INR 38) by (simpl; lra).
  rewrite exp_INR. apply pow_incr. split; [left; apply exp_pos|apply exp_le_3].
Qed.

(** X18: on the distances inside a block, which has 21 positions at most,
    the weight lies between 3^-38 and 1, is 1 at the distance 0, and on the
    right is at least 1.05 times the weight at the same distance on the
    left ([Math.exp] taken as the real exponential; the bounds leave the
    rounding of [Math.exp] and the range of the floats far away). *)
Theorem gaussianAsym_shape (d : Z) :
  (-21 <= d <= 21)%Z ->
  (/ 3 ^ 38 <= gaussianAsym (IZR d) <= 1)%R /\
  (d = 0%Z -> gaussianAsym (IZR d) = 1%R) /\
  ((0 < d)%Z -> (1.05 * gaussianAsym (IZR (- d)) <= gaussianAsym (IZR d))%R).
Proof.
  intros Hd.
  assert (Hx : (-21 <= IZR d <= 21)%R) by (split; apply IZR_le; lia).
  assert (Hsq : (0 <= IZR d * IZR d <= 441)%R) by nra.
  split; [|split].
  - destruct (Rle_dec 0 (IZR d)) as [Hpos|Hneg].
    + rewrite gaussianAsym_nonneg by exact Hpos. split.
      * eapply Rle_trans; [apply exp_minus_38|]. apply exp_le.
        assert (Hc : (0 <= / (2 * 3.74 * 3.74) <= 0.0861)%R) by lra.
        assert (IZR d * IZR d / (2 * 3.74 * 3.74) <= 38)%R; [|lra].
        unfold Rdiv. nra.
      * rewrite <- exp_0. apply exp_le.
        assert (Hc : (0 <= / (2 * 3.74 * 3.74))%R) by lra.
        assert (0 <= IZR d * IZR d / (2 * 3.74 * 3.74))%R; [|lra].
        unfold Rdiv. nra.
    + rewrite gaussianAsym_neg by lra. split.
      * eapply Rle_trans; [apply exp_minus_38|]. apply exp_le.
        assert (Hc : (0 <= / (2 * 2.41 * 2.41) <= 0.0861)%R) by lra.
        assert (IZR d * IZR d / (2 * 2.41 * 2.41) <= 38)%R; [|lra].
        unfold Rdiv. nra.
      * rewrite <- exp_0. apply exp_le.
        assert (Hc : (0 <= / (2 * 2.41 * 2.41))%R) by lra.
        assert (0 <= IZR d * IZR d / (2 * 2.41 * 2.41))%R; [|lra].
        unfold Rdiv. nra.
  - intros ->. rewrite gaussianAsym_nonneg by lra.
    rewrite <- exp_0. f_equal. lra.
  - intros Hd0.
    assert (H1 : (1 <= IZR d)%R) by (apply IZR_le; lia).
    rewrite (gaussianAsym_nonneg (IZR d)) by lra.
    rewrite opp_IZR, (gaussianAsym_neg (- IZR d)) by lra.
    replace (- IZR d * - IZR d)%R with (IZR d * IZR d)%R by ring.
    set (l := (IZR d * IZR d / (2 * 2.41 * 2.41))%R).
    set (r := (IZR d * IZR d / (2 * 3.74 * 3.74))%R).
    assert (Hgap : (0.05 <= l - r)%R).
    { subst l r. unfold Rdiv.
      assert (Hc : (0.05 <= / (2 * 2.41 * 2.41) - / (2 * 3.74 * 3.74))%R) by lra.
      nra. }
    replace (- r)%R with (- l + (l - r))%R by ring.
    rewrite exp_plus, (Rmult_comm (exp (- l))).
    apply Rmult_le_compat_r; [left; apply exp_pos|].
    pose proof (exp_ineq1_le (l - r)). lra.
Qed.

Lemma gaussianAsym_shape_witness :
  (/ 3 ^ 38 <= gaussianAsym 3 <= 1)%R /\
  (3%Z = 0%Z -> gaussianAsym 3 = 1%R) /\
  ((0 < 3)%Z -> (1.05 * gaussianAsym (-3) <= gaussianAsym 3)%R).
Proof. apply (gaussianAsym_shape 3). lia. Defined.

Lemma markFrom_window (c pos : nat) block tokens :
  markFrom (Z.of_nat c) pos block tokens =
  wrapAll (drop (c - 1 - pos) (take (c + 3 - pos) block)) tokens.
Proof.
  revert pos tokens. induction block as [|x b IH]; intros pos tokens.
  - now rewrite take_nil, drop_nil.
  - cbn [markFrom]. rewrite IH. unfold emphasised.
    destruct (Z.leb_spec (-1) (Z.of_nat pos - Z.of_nat c));
      destruct (Z.leb_spec (Z.of_nat pos - Z.of_nat c) 2); cbn [andb].
    + replace (c - 1 - pos) with 0 by lia.
      replace (c + 3 - pos) with (S (c + 3 - S pos)) by lia.
      replace (c - 1 - S pos) with 0 by lia. reflexivity.
    + replace (c + 3 - pos) with 0 by lia.
      replace (c + 3 - S pos) with 0 by lia.
      now rewrite !take_0, !drop_nil.
    + replace (c - 1 - pos) with (S (c - 1 - S pos)) by lia.
      replace (c + 3 - pos) with (S (c + 3 - S pos)) by lia. reflexivity.
    + lia.
Qed.

(** X19: in a block the emphasised tokens are those at the positions
    [center - 1] to [center + 2], four at most. *)
Theorem markBlock_window (block : list nat) (tokens : list token) :
  let center := length block / 2 in
  markBlock block tokens = wrapAll (window center block) tokens /\
  length (window center block) <= 4.
Proof.
  cbv zeta. split.
  - unfold markBlock, window.
    replace (Z.of_nat (length block) / 2)%Z with (Z.of_nat (length block / 2))
      by now rewrite Nat2Z.inj_div.
    rewrite markFrom_window. now rewrite !Nat.sub_0_r.
  - unfold window. rewrite length_drop, length_take. lia.
Qed.

Lemma sumZ_lower (lo : Z) (l : list Z) :
  Forall (fun s => (lo <= s)%Z) l -> (lo * Z.of_nat (length l) <= sumZ l)%Z.
Proof.
  induction 1 as [|s l Hs _ IH]; [simpl; lia|].
  cbn [sumZ fold_right length] in *. fold (sumZ l). lia.
Qed.

Lemma sumZ_walk_lower noise base minSize maxSize steps k W :
  (minSize <= maxSize)%Z ->
  (minSize * Z.of_nat steps <=
   sumZ (brownianWalk noise base minSize maxSize steps k W))%Z.
Proof.
  intros Hmm.
  rewrite <- (brownianWalk_length noise base minSize maxSize steps k W) at 1.
  apply sumZ_lower.
  eapply Forall_impl; [now apply brownianWalk_bounds|]. simpl. intros s Hs. lia.
Qed.

(** X20: the sizes of the blocks add up to the number of syllable tokens at
    least, so that every syllable token is in a block. *)
Theorem brownianBlockSizes_cover noise (total : nat) :
  let nBlocks := Qceiling (inject_Z (Z.of_nat total) / 2)%Q in
  (Z.of_nat total <= sumZ (brownianBlockSizes noise nBlocks 21 4 12))%Z.
Proof.
  cbv zeta. rewrite Qceiling_half. unfold brownianBlockSizes.
  cbn [sumZ fold_right].
  pose proof (sumZ_walk_lower noise 21 4 12
                (Z.to_nat ((Z.of_nat total + 1) / 2 - 1)) 0 0 ltac:(lia)) as H.
  unfold sumZ in H.
  assert (Hdiv : (Z.of_nat total <= 2 * ((Z.of_nat total + 1) / 2))%Z)
    by (Z.div_mod_to_equations; lia).
  lia.
Qed.

(** X21: with at most 21 syllable tokens the result is the tokens with the
    window of the single block in markers, whatever the noise. *)
Theorem formatSyllables_short noise (tokens : list token) :
  length (syllIdxsOf tokens) <= 21 ->
  formatSyllables noise tokens =
  join [] (map text
    (wrapAll (window (length (syllIdxsOf tokens) / 2) (syllIdxsOf tokens)) tokens)).
Proof.
  intros Hlen. rewrite formatSyllables_one_block by exact Hlen.
  unfold markBlock, window.
  replace (Z.of_nat (length (syllIdxsOf tokens)) / 2)%Z
    with (Z.of_nat (length (syllIdxsOf tokens) / 2))
    by now rewrite Nat2Z.inj_div.
  rewrite markFrom_window. now rewrite !Nat.sub_0_r.
Qed.

Lemma formatSyllables_short_witness :
  formatSyllables (fun _ => 0%Q) (tokenizeToSyllables (str "Bonjour le monde.")) =
  str "Bonj**ou** **le** **mond****e**.".
Proof.
  rewrite formatSyllables_short by (vm_compute; lia).
  vm_compute. reflexivity.
Defined.

(** ** The blocks of a text *)

Lemma markBlocks_chunks syllIdxs sizes : forall idx tokens,
  Forall (fun size => (0 <= size)%Z) sizes -> (0 <= idx)%Z ->
  markBlocks syllIdxs sizes idx tokens =
  wrapAll (flat_map (fun block => window (length block / 2) block)
             (chunks sizes (drop (Z.to_nat idx) syllIdxs)))
          tokens.
Proof.
  induction sizes as [|size sizes IH]; intros idx tokens Hsizes Hidx;
    [reflexivity|].
  apply Forall_cons in Hsizes as [Hsize Hsizes].
  cbn [markBlocks chunks flat_map]. rewrite slice_take_drop by assumption.
  rewrite IH by (assumption || lia). rewrite wrapAll_app.
  replace (Z.to_nat (idx + size)) with (Z.to_nat idx + Z.to_nat size) by lia.
  rewrite drop_drop. f_equal.
  unfold markBlock, window.
  set (block := take (Z.to_nat size) (drop (Z.to_nat idx) syllIdxs)).
  replace (Z.of_nat (length block) / 2)%Z with (Z.of_nat (length block / 2))
    by now rewrite Nat2Z.inj_div.
  rewrite markFrom_window. now rewrite !Nat.sub_0_r.
Qed.

Lemma chunks_concat sizes : forall l,
  Forall (fun size => (0 <= size)%Z) sizes ->
  (Z.of_nat (length l) <= sumZ sizes)%Z ->
  concat (chunks sizes l) = l.
Proof.
  induction sizes as [|size sizes IH]; intros l Hsizes Hsum.
  - cbn [sumZ fold_right] in Hsum. destruct l; [reflexivity|simpl in Hsum; lia].
  - apply Forall_cons in Hsizes as [Hsize Hsizes].
    cbn [chunks concat]. rewrite IH; [apply take_drop|exact Hsizes|].
    pose proof (sumZ_lower 0 sizes Hsizes) as Hpos.
    unfold sumZ in *. cbn [fold_right] in Hsum. cbn beta in Hsize.
    rewrite length_drop. lia.
Qed.

(** X22: the blocks are consecutive pieces, of the sizes drawn, of the list
    of the positions of the syllable tokens, and they cover it; the result
    is the tokens with the window of every block in markers. *)
Theorem formatSyllables_blocks noise (tokens : list token) :
  let syllIdxs := syllIdxsOf tokens in
  let nBlocks := Qceiling (inject_Z (Z.of_nat (length syllIdxs)) / 2)%Q in
  let blocks := chunks (brownianBlockSizes noise nBlocks 21 4 12) syllIdxs in
  concat blocks = syllIdxs /\
  formatSyllables noise tokens =
  join [] (map text
    (wrapAll (flat_map (fun block => window (length block / 2) block) blocks)
             tokens)).
Proof.
  cbv zeta. split.
  - apply chunks_concat; [apply default_sizes_nonneg|].
    rewrite Qceiling_half. unfold brownianBlockSizes. cbn [sumZ fold_right].
    pose proof (sumZ_walk_lower noise 21 4 12
                  (Z.to_nat ((Z.of_nat (length (syllIdxsOf tokens)) + 1) / 2 - 1))
                  0 0 ltac:(lia)) as H.
    unfold sumZ in H.
    assert (Hdiv : (Z.of_nat (length (syllIdxsOf tokens)) <=
                    2 * ((Z.of_nat (length (syllIdxsOf tokens)) + 1) / 2))%Z)
      by (Z.div_mod_to_equations; lia).
    lia.
  - unfold formatSyllables.
    rewrite markBlocks_chunks by (apply default_sizes_nonneg || lia).
    reflexivity.
Qed.

(** ** The walk and its mirror image *)

Lemma brownianWalk_opp noise base minSize maxSize steps : forall k W1 W2,
  (W1 == - W2)%Q ->
  brownianWalk (fun i => (- noise i)%Q) base minSize maxSize steps k W1 =
  brownianWalk noise base minSize maxSize steps k W2.
Proof.
  induction steps as [|n IH]; intros k W1 W2 HW; [reflexivity|].
  rewrite !brownianWalk_S. cbv zeta.
  assert (E : (W1 + - noise k == - (W2 + noise k))%Q) by (rewrite HW; ring).
  rewrite (IH (S k) (W1 + - noise k)%Q (W2 + noise k)%Q E).
  assert (Ef : Qfloor (inject_Z base - Qabs (W1 + - noise k))%Q =
               Qfloor (inject_Z base - Qabs (W2 + noise k))%Q).
  { apply Qfloor_comp. rewrite E, Qabs_opp. reflexivity. }
  now rewrite Ef.
Qed.

Lemma brownianBlockSizes_mirror noise (nBlocks base minSize maxSize : Z) :
  brownianBlockSizes (fun i => (- noise i)%Q) nBlocks base minSize maxSize =
  brownianBlockSizes noise nBlocks base minSize maxSize.
Proof.
  unfold brownianBlockSizes. f_equal. apply brownianWalk_opp. reflexivity.
Qed.

(** X23: the sizes depend on the distance of the walk from 0 only: the
    opposite noise gives the same sizes, and the same result. *)
Theorem brownianBlockSizes_opp noise :
  (forall nBlocks base minSize maxSize,
     brownianBlockSizes (fun i => (- noise i)%Q) nBlocks base minSize maxSize =
     brownianBlockSizes noise nBlocks base minSize maxSize) /\
  (forall text0, processText (fun i => (- noise i)%Q) text0 = processText noise text0).
Proof.
  split; [apply brownianBlockSizes_mirror|].
  intros text0. unfold processText, formatSyllables.
  now rewrite brownianBlockSizes_mirror.
Qed.

(** ** Unicode bold, code unit by code unit *)

Lemma boldChar_unit c :
  (isAlnum c = false /\ boldChar [c] = [c]) \/
  (isAlnum c = true /\
   exists h l, boldChar [c] = [h; l] /\ isHigh h && isLow l = true).
Proof.
  destruct (boldChar_codePoint [c]) as [Hcp Hshape].
  unfold boldChar, isAlnum, inRange in *. cbn [codePointAt0] in *.
  rewrite !Z.geb_leb in *.
  destruct ((65 <=? c)%Z && (c <=? 90)%Z) eqn:Hup.
  { right. split; [reflexivity|].
    destruct Hshape as [Heq|Hpair]; [|exact Hpair].
    exfalso. apply andb_true_iff in Hup as [H1 H2]. apply Z.leb_le in H1, H2.
    unfold fromCodePoint in Heq.
    destruct (Z.ltb_spec (0x1D400 + (c - 65)) 65536); [lia|discriminate]. }
  destruct ((97 <=? c)%Z && (c <=? 122)%Z) eqn:Hlo.
  { right. split; [reflexivity|].
    destruct Hshape as [Heq|Hpair]; [|exact Hpair].
    exfalso. apply andb_true_iff in Hlo as [H1 H2]. apply Z.leb_le in H1, H2.
    unfold fromCodePoint in Heq.
    destruct (Z.ltb_spec (0x1D41A + (c - 97)) 65536); [lia|discriminate]. }
  destruct ((48 <=? c)%Z && (c <=? 57)%Z) eqn:Hdi.
  { right. split; [reflexivity|].
    destruct Hshape as [Heq|Hpair]; [|exact Hpair].
    exfalso. apply andb_true_iff in Hdi as [H1 H2]. apply Z.leb_le in H1, H2.
    unfold fromCodePoint in Heq.
    destruct (Z.ltb_spec (0x1D7CE + (c - 48)) 65536); [lia|discriminate]. }
  left. split; reflexivity.
Qed.

Lemma surrogate_not_alnum c : isHigh c || isLow c = true -> isAlnum c = false.
Proof.
  unfold isHigh, isLow, isAlnum, inRange. intros H.
  apply orb_true_iff in H.
  assert (Hc : (55296 <= c)%Z).
  { destruct H as [H|H]; apply andb_true_iff in H as [H _];
      apply Z.leb_le in H; lia. }
  repeat match goal with
         | |- context [(?a <=? ?b)%Z] => destruct (Z.leb_spec a b); try lia
         end; reflexivity.
Qed.

Lemma boldChar_surrogate c : isHigh c || isLow c = true -> boldChar [c] = [c].
Proof.
  intros H. apply surrogate_not_alnum in H.
  destruct (boldChar_unit c) as [[_ Heq]|[Hal _]]; [exact Heq|congruence].
Qed.

Lemma toUnicodeBold_flat_map s :
  toUnicodeBold s = flat_map (fun c => boldChar [c]) s.
Proof.
  unfold toUnicodeBold. rewrite join_nil_concat.
  assert (H : forall n s, length s <= n ->
            concat (map boldChar (spread s)) = flat_map (fun c => boldChar [c]) s).
  { clear s. induction n as [|n IH]; intros s Hlen.
    - destruct s; [reflexivity|simpl in Hlen; lia].
    - destruct s as [|c [|l s]]; [reflexivity|reflexivity|].
      rewrite spread_cons2. destruct (isHigh c && isLow l) eqn:Hpair.
      + cbn [map concat flat_map]. rewrite IH by (simpl in Hlen; lia).
        rewrite boldChar_pair by exact Hpair.
        apply andb_true_iff in Hpair as [Hh Hl].
        rewrite (boldChar_surrogate c) by (now rewrite Hh).
        rewrite (boldChar_surrogate l) by (rewrite Hl; apply orb_true_r).
        reflexivity.
      + cbn [map concat]. rewrite IH by (simpl in Hlen |- *; lia). reflexivity. }
  now apply (H (length s)).
Qed.

(** X24: the conversion works code unit by code unit, a surrogate being left
    as it is; so the conversion of a concatenation is the concatenation of
    the conversions. *)
Theorem toUnicodeBold_units :
  (forall s, toUnicodeBold s = flat_map (fun c => boldChar [c]) s) /\
  (forall a b, toUnicodeBold (a ++ b) = toUnicodeBold a ++ toUnicodeBold b).
Proof.
  split; [apply toUnicodeBold_flat_map|].
  intros a b. rewrite !toUnicodeBold_flat_map. apply flat_map_app.
Qed.

Lemma boldChar_not_alnum c :
  Forall (fun x => isAlnum x = false) (boldChar [c]).
Proof.
  destruct (boldChar_unit c) as [[Hal ->]|[_ (h & l & -> & Hp)]].
  - now repeat constructor.
  - apply andb_true_iff in Hp as [Hh Hl].
    constructor; [|constructor; [|constructor]]; apply surrogate_not_alnum.
    + now rewrite Hh.
    + rewrite Hl. apply orb_true_r.
Qed.

Lemma boldChar_not_alnum_all s :
  Forall (fun c => isAlnum c = false) (toUnicodeBold s).
Proof.
  rewrite toUnicodeBold_flat_map.
  induction s as [|c s IH]; [constructor|].
  cbn [flat_map]. apply Forall_app. split; [apply boldChar_not_alnum|exact IH].
Qed.

(** X25: the conversion leaves no ASCII letter and no digit, and has two code
    units for each one that it replaces. *)
Theorem toUnicodeBold_no_alnum (s : jsstring) :
  Forall (fun c => isAlnum c = false) (toUnicodeBold s) /\
  length (toUnicodeBold s) = length s + length (List.filter isAlnum s).
Proof.
  split; [apply boldChar_not_alnum_all|].
  rewrite toUnicodeBold_flat_map.
  induction s as [|c s IH]; [reflexivity|].
    cbn [flat_map List.filter]. rewrite length_app, IH.
    destruct (boldChar_unit c) as [[Hal ->]|[Hal (h & l & -> & _)]];
      rewrite Hal; simpl; lia.
Qed.

(** X26: converting twice is converting once. *)
Theorem toUnicodeBold_idempotent (s : jsstring) :
  toUnicodeBold (toUnicodeBold s) = toUnicodeBold s.
Proof.
  rewrite (toUnicodeBold_flat_map (toUnicodeBold s)).
  pose proof (proj1 (Forall_forall _ _)
                (boldChar_not_alnum_all s)) as H.
  induction (toUnicodeBold s) as [|c r IH]; [reflexivity|].
  cbn [flat_map]. rewrite IH by (intros x Hx; apply H; now right).
  destruct (boldChar_unit c) as [[_ ->]|[Hal _]]; [reflexivity|].
  rewrite H in Hal by now left. discriminate.
Qed.

(** ** The three renderings of the result *)

Lemma replace_from_skip m repl rest : forall skip prev,
  skip <= length rest ->
  replace_from m repl skip prev rest =
  replace_from m repl 0 (rev (take skip rest) ++ prev) (drop skip rest).
Proof.
  induction rest as [|c r IH]; intros skip prev Hskip.
  - destruct skip; [reflexivity|simpl in Hskip; lia].
  - destruct skip as [|k]; [reflexivity|].
    cbn [replace_from take drop rev]. rewrite IH by (simpl in Hskip; lia).
    now rewrite <- app_assoc.
Qed.

Lemma replace_from_match m repl prev matched rest :
  matched <> [] ->
  m prev (matched ++ rest) = Some (length matched) ->
  replace_from m repl 0 prev (matched ++ rest) =
  repl matched ++ replace_from m repl 0 (rev matched ++ prev) rest.
Proof.
  intros Hne Hm. destruct matched as [|c mt]; [contradiction|].
  change ((c :: mt) ++ rest) with (c :: mt ++ rest) in *.
  cbn [replace_from]. rewrite Hm. cbn [length pred take].
  rewrite take_app_length. f_equal.
  rewrite replace_from_skip by (rewrite length_app; lia).
  rewrite take_app_length, drop_app_length. cbn [rev].
  now rewrite <- app_assoc.
Qed.

Lemma starsAt_plain c s : c <> 42%Z -> starsAt (c :: s) = false.
Proof.
  intros Hc. unfold starsAt. destruct s; [reflexivity|].
  now destruct (Z.eqb_spec c 42).
Qed.

Lemma replace_from_plain m repl plain : forall prev rest,
  starred m -> Forall (fun c => c <> 42%Z) plain ->
  replace_from m repl 0 prev (plain ++ rest) =
  plain ++ replace_from m repl 0 (rev plain ++ prev) rest.
Proof.
  induction plain as [|c p IH]; intros prev rest Hm Hp; [reflexivity|].
  apply Forall_cons in Hp as [Hc Hp].
  change ((c :: p) ++ rest) with (c :: p ++ rest).
  cbn [replace_from]. rewrite (Hm prev (c :: p ++ rest)) by now apply starsAt_plain.
  rewrite IH by assumption. cbn [rev]. now rewrite <- !app_assoc.
Qed.

Lemma re_strong_starred : starred re_strong.
Proof. intros prev s H. unfold re_strong. now rewrite H. Qed.

Lemma re_markers_starred : starred re_markers.
Proof. intros prev s H. unfold re_markers. now rewrite H. Qed.

Lemma closeAt_plain t rest :
  Forall (fun c => c <> 42%Z) t ->
  Forall (fun c => isLineTerminator c = false) t ->
  closeAt (t ++ 42%Z :: 42%Z :: rest) = Some (length t).
Proof.
  induction 1 as [|c t Hc _ IH]; intros Hlt; [reflexivity|].
  apply Forall_cons in Hlt as [Hl Hlt].
  change ((c :: t) ++ 42%Z :: 42%Z :: rest) with (c :: t ++ 42%Z :: 42%Z :: rest).
  cbn [closeAt]. rewrite starsAt_plain by exact Hc.
  rewrite Hl, IH by exact Hlt. reflexivity.
Qed.

Lemma html_tokens tokens marks :
  Forall2 markable tokens marks -> forall prev,
  replace_from re_strong strongOf 0 prev (concat (zip_with render tokens marks)) =
  concat (zip_with renderHtml tokens marks).
Proof.
  induction 1 as [|t b tokens marks [Hplain Hlt] _ IH]; intros prev;
    [reflexivity|].
  cbn [zip_with concat]. destruct b.
  - unfold render, renderHtml. change (str "**") with [42%Z; 42%Z].
    specialize (Hlt eq_refl).
    set (matched := [42%Z; 42%Z] ++ text t ++ [42%Z; 42%Z]).
    rewrite (replace_from_match re_strong strongOf prev matched).
    + rewrite IH. f_equal. unfold strongOf, matched.
      rewrite !length_app. cbn [length drop app].
      replace (2 + (length (text t) + 2) - 4) with (length (text t)) by lia.
      now rewrite drop_0, take_app_length.
    + discriminate.
    + unfold re_strong, matched. rewrite <- !app_assoc. cbn [app starsAt drop].
      rewrite drop_0, closeAt_plain by assumption.
      cbn [option_map length]. rewrite !length_app. cbn [length]. f_equal. lia.
  - unfold render at 1, renderHtml at 1.
    rewrite replace_from_plain by (assumption || apply re_strong_starred).
    now rewrite IH.
Qed.

Lemma strip_tokens tokens marks :
  Forall2 markable tokens marks -> forall prev,
  replace_from re_markers (fun _ => []) 0 prev
    (concat (zip_with render tokens marks)) =
  concat (map text tokens).
Proof.
  induction 1 as [|t b tokens marks [Hplain _] _ IH]; intros prev;
    [reflexivity|].
  cbn [zip_with concat map]. destruct b.
  - unfold render. change (str "**") with [42%Z; 42%Z].
    rewrite <- !app_assoc.
    rewrite (replace_from_match re_markers _ prev [42%Z; 42%Z])
      by (reflexivity || discriminate).
    rewrite replace_from_plain by (assumption || apply re_markers_starred).
    rewrite (replace_from_match re_markers _ _ [42%Z; 42%Z])
      by (reflexivity || discriminate).
    now rewrite IH.
  - unfold render at 1.
    rewrite replace_from_plain by (assumption || apply re_markers_starred).
    now rewrite IH.
Qed.

Lemma isWord_not_lineTerminator c : isWord c = true -> isLineTerminator c = false.
Proof.
  intros Hw. apply isWord_not_space in Hw.
  unfold isSpace, isLineTerminator, inRange in *.
  repeat match goal with
         | |- context [(?a =? ?b)%Z] => destruct (Z.eqb_spec a b); subst
         end; try reflexivity; discriminate.
Qed.

Lemma tokens_markable (text0 : jsstring) (marks : list bool) :
  Forall (fun c => c <> 42%Z) text0 ->
  length marks = length (tokenizeToSyllables text0) ->
  (forall i t, tokenizeToSyllables text0 !! i = Some t ->
               marks !! i = Some true -> type t = syll) ->
  Forall2 markable (tokenizeToSyllables text0) marks.
Proof.
  intros Hplain Hlen Hsyll.
  apply Forall2_same_length_lookup_2; [now symmetry|].
  intros i t b Ht Hb. split.
  - pose proof (tokenizeToSyllables_Forall (fun c => c <> 42%Z) text0 Hplain) as H.
    rewrite Forall_lookup in H. now apply (H i).
  - intros ->. pose proof (tokenShape_matchAll_from text0 0 []) as H.
    fold (matchAll re_token true text0) in H. fold (tokenizeToSyllables text0) in H.
    rewrite Forall_lookup in H. destruct (H i t Ht) as [_ Hshape].
    rewrite (Hsyll i t Ht Hb) in Hshape.
    eapply Forall_impl; [exact Hshape|apply isWord_not_lineTerminator].
Qed.

(** X27: for a text without star, the three fields of the response are three
    renderings of the same tokens with the same marks: the tokens of the
    adjusted text, the marked ones between markers in [markdown], in a
    [strong] element in [html], and all of them without markers, in bold
    letters and digits, in [unicode]. *)
Theorem formatBody_renderings noise (text0 : jsstring) :
  Forall (fun c => c <> 42%Z) text0 ->
  let tokens := tokenizeToSyllables (adjustReadability text0 74 82) in
  exists marks : list bool,
    length marks = length tokens /\
    (forall i t, tokens !! i = Some t -> marks !! i = Some true -> type t = syll) /\
    markdown (formatBody noise text0) = join [] (zip_with render tokens marks) /\
    html (formatBody noise text0) = join [] (zip_with renderHtml tokens marks) /\
    unicode (formatBody noise text0) = toUnicodeBold (join [] (map text tokens)).
Proof.
  intros Hplain tokens.
  destruct (formatSyllables_marks noise tokens) as [marks [Hlen [Hsyll Heq]]].
  exists marks. split; [exact Hlen|]. split; [exact Hsyll|].
  assert (Hmark : Forall2 markable tokens marks).
  { apply tokens_markable; [|exact Hlen|exact Hsyll].
    apply adjustReadability_Forall; [discriminate|exact Hplain]. }
  unfold formatBody. cbn [markdown html unicode]. unfold processText.
  fold tokens. rewrite Heq, !join_nil_concat. split; [reflexivity|]. split.
  - apply (html_tokens tokens marks Hmark []).
  - f_equal. apply (strip_tokens tokens marks Hmark []).
Qed.

Lemma formatBody_renderings_witness :
  let tokens := tokenizeToSyllables (adjustReadability (str "Bonjour le monde.") 74 82) in
  exists marks : list bool,
    length marks = length tokens /\
    (forall i t, tokens !! i = Some t -> marks !! i = Some true -> type t = syll) /\
    markdown (formatBody (fun _ => 0%Q) (str "Bonjour le monde.")) =
      join [] (zip_with render tokens marks) /\
    html (formatBody (fun _ => 0%Q) (str "Bonjour le monde.")) =
      join [] (zip_with renderHtml tokens marks) /\
    unicode (formatBody (fun _ => 0%Q) (str "Bonjour le monde.")) =
      toUnicodeBold (join [] (map text tokens)).
Proof.
  apply (formatBody_renderings (fun _ => 0%Q) (str "Bonjour le monde.")).
  repeat constructor; discriminate.
Defined.

(** X28: a string without star is its own page: [toHtml] and the removal of
    the markers leave it as it is. *)
Theorem toHtml_plain (s : jsstring) :
  Forall (fun c => c <> 42%Z) s -> toHtml s = s /\ stripMarkers s = s.
Proof.
  intros Hs. unfold toHtml, stripMarkers, replace. split.
  - rewrite <- (app_nil_r s) at 1.
    rewrite replace_from_plain by (assumption || apply re_strong_starred).
    simpl. apply app_nil_r.
  - rewrite <- (app_nil_r s) at 1.
    rewrite replace_from_plain by (assumption || apply re_markers_starred).
    simpl. apply app_nil_r.
Qed.

Lemma toHtml_plain_witness :
  toHtml (str "a < b") = str "a < b" /\ stripMarkers (str "a < b") = str "a < b".
Proof. apply toHtml_plain. repeat constructor; discriminate. Defined.

(** X29: for a text without star, the result without its markers is the
    adjusted text with every word cut after its last vowel, whatever the
    noise. *)
Theorem processText_unmarked noise (text0 : jsstring) :
  Forall (fun c => c <> 42%Z) text0 ->
  stripMarkers (processText noise text0) =
  mapWords keepWord (adjustReadability text0 74 82).
Proof.
  intros Hplain. unfold processText.
  set (adjusted := adjustReadability text0 74 82).
  destruct (formatSyllables_marks noise (tokenizeToSyllables adjusted))
    as [marks [Hlen [Hsyll Heq]]].
  assert (Hmark : Forall2 markable (tokenizeToSyllables adjusted) marks).
  { apply tokens_markable; [|exact Hlen|exact Hsyll].
    apply adjustReadability_Forall; [discriminate|exact Hplain]. }
  rewrite Heq, join_nil_concat. unfold stripMarkers, replace.
  rewrite (strip_tokens _ marks Hmark []).
  apply (texts_matchAll_from adjusted 0 []).
Qed.

Lemma processText_unmarked_witness :
  stripMarkers (processText (fun _ => 0%Q) (str "Bonjour le monde.")) =
  mapWords keepWord (adjustReadability (str "Bonjour le monde.") 74 82).
Proof.
  apply processText_unmarked. repeat constructor; discriminate.
Defined.
